(** * AWS IoT FleetWise Edge: queue, channel, ISO-TP receiver and CPU accounting

    A shallow embedding of the parts of the edge agent that the specification
    makes claims about:

    - [LockedQueue], the mutex-protected bounded FIFO of
      [CollectionInspectionAPITypes.h];
    - the compile-time constants of [CollectionInspectionAPITypes.h] and
      [AwsIotChannel.h];
    - [ISOTPOverCANReceiver::receivePDU] of [ISOTPOverCANReceiver.cpp];
    - [CPUUsageInfo::reportCPUUsageInfo] of [CPUUsageInfo.cpp];
    - the trigger engine tick, whose body is not part of the sources at hand
      and is modelled from the specification.

    Every operation of [LockedQueue] runs under [std::lock_guard], so an
    operation is one atomic state transition; the model passes the queue
    state explicitly. *)

From Stdlib Require Import Strings.String Strings.Ascii Strings.Byte ZArith List Bool Lia.
From Equations Require Import Equations.
Import ListNotations.
Local Open Scope Z_scope.

(** ** Machine integers *)

(** [size_t] and [uint64_t] are 64 bits wide on the Linux targets. *)
Definition SIZE_MAX : Z := 2 ^ 64 - 1.
Definition UINT64_MAX : Z := 2 ^ 64 - 1.
Definition UINT32_MAX : Z := 2 ^ 32 - 1.

(** Unsigned 64-bit addition and subtraction, wrapping around. *)
Definition u64_add (a b : Z) : Z := (a + b) mod 2 ^ 64.
Definition u64_sub (a b : Z) : Z := (a - b) mod 2 ^ 64.

(** Inspecting the result of a call together with the equation that
    produced it (used by the loop of [consumeAll]). *)
Definition inspect {A : Type} (a : A) : {b : A | a = b} := exist _ a eq_refl.

(** ** Compile-time constants *)

Module Constants.

(** [CollectionInspectionAPITypes.h], lines 22-27. *)
Definition MAX_NUMBER_OF_ACTIVE_CONDITION : Z := 256.
Definition ALL_CONDITIONS : Z := 0xFFFFFFFF.
Definition MAX_EQUATION_DEPTH : Z := 10.
Definition MAX_DIFFERENT_SIGNAL_IDS : Z := 50000.

(** [AwsIotChannel.h], line 82 and line 152. *)
Definition MAXIMUM_IOT_SDK_HEAP_MEMORY_BYTES : Z := 10000000.
Definition AWS_IOT_MAX_MESSAGE_SIZE : Z := 131072.

(** [CollectionInspectionWorkerThread.h], line 114. *)
Definition EVALUATE_INTERVAL_MS : Z := 1.

End Constants.

(** ** LockedQueue *)

Module LockedQueue.

Section Queue.

(** The element type and the value of a default-constructed element
    ([T element;] in [consumeAll]). *)
Context {T : Type}.
Variable T_default : T.

(** [mMutex] carries no data; [mQueue] is a [std::queue<T>], front first. *)
Record t : Type := mk {
  mMaxSize : Z;
  mQueue : list T
}.

(** [LockedQueue( size_t maxSize ) : mMaxSize( maxSize )]. *)
Definition ctor (maxSize : Z) : t := mk maxSize [].

(** [mQueue.size()]. *)
Definition size (q : t) : Z := Z.of_nat (length (mQueue q)).

(** [bool push( const T &&element )]:
    rejects when [( mQueue.size() + 1 ) > mMaxSize], else appends at the back. *)
Definition push (q : t) (element : T) : bool * t :=
  if u64_add (size q) 1 >? mMaxSize q
  then (false, q)
  else (true, mk (mMaxSize q) (mQueue q ++ [element])).

(** [bool pop( T &element )]: [element] is an out-parameter; it is written
    only when the queue is not empty. *)
Definition pop (q : t) (element : T) : bool * T * t :=
  match mQueue q with
  | [] => (false, element, q)
  | front :: rest => (true, front, mk (mMaxSize q) rest)
  end.

(** [bool isEmpty()]. *)
Definition isEmpty (q : t) : bool :=
  match mQueue q with
  | [] => true
  | _ :: _ => false
  end.

(** The loop of [consumeAll]:
    [while ( pop( element ) ) { functor( element ); consumed++; }].
    The functor acts on its captured environment [S]; [consumed] is a
    [size_t]. Each iteration removes an element, which bounds the loop. *)
Equations? consumeAll_loop {S : Type} (functor : T -> S -> S)
    (q : t) (element : T) (consumed : Z) (s : S) : Z * t * S
    by wf (length (mQueue q)) lt :=
  consumeAll_loop functor q element consumed s with inspect (pop q element) => {
    | exist _ (true, element', q') _ :=
        consumeAll_loop functor q' element' (u64_add consumed 1) (functor element' s);
    | exist _ (false, _, q') _ := (consumed, q', s) }.
Proof.
  unfold pop in *. destruct (mQueue q) as [|front rest]; [discriminate|].
  match goal with H : _ = (true, _, _) |- _ => inversion H; subst end.
  simpl. lia.
Qed.

(** [size_t consumeAll( const Functor &functor )]. *)
Definition consumeAll {S : Type} (functor : T -> S -> S) (q : t) (s : S)
  : Z * t * S :=
  consumeAll_loop functor q T_default 0 s.

(** *** Sequences of operations

    A client drives the queue through its public interface. The run keeps
    the queue together with what an observer can record: the elements whose
    [push] returned true, the elements handed out by [pop] and by the functor
    of [consumeAll], and the result of every [push]. *)
Inductive op : Type :=
| OpPush (v : T)
| OpPop
| OpConsumeAll
| OpIsEmpty.

Record observed : Type := mkObserved {
  queue : t;
  accepted : list T;
  delivered : list T;
  push_results : list bool
}.

(** The functor used by the observer: it appends what it is given. *)
Definition record_element (e : T) (log : list T) : list T := log ++ [e].

Definition step (o : observed) (a : op) : observed :=
  match a with
  | OpPush v =>
      let '(ok, q') := push (queue o) v in
      mkObserved q'
        (if ok then accepted o ++ [v] else accepted o)
        (delivered o)
        (push_results o ++ [ok])
  | OpPop =>
      let '(ok, e, q') := pop (queue o) T_default in
      mkObserved q' (accepted o)
        (if ok then delivered o ++ [e] else delivered o)
        (push_results o)
  | OpConsumeAll =>
      let '(_, q', log) := consumeAll record_element (queue o) (delivered o) in
      mkObserved q' (accepted o) log (push_results o)
  | OpIsEmpty => o
  end.

Definition run (o : observed) (ops : list op) : observed :=
  fold_left step ops o.

Definition start (maxSize : Z) : observed :=
  mkObserved (ctor maxSize) [] [] [].

(** The capacity invariant. *)
Definition within_capacity (q : t) : Prop := size q <= mMaxSize q.

(** A [std::queue] never holds [SIZE_MAX] elements (its [max_size()] is
    smaller), so [mQueue.size() + 1] does not wrap on such a queue. *)
Definition size_representable (q : t) : Prop := size q < SIZE_MAX.

(** The value of the [size_t] counter of [consumeAll] after one increment
    per element. *)
Fixpoint count_up (consumed : Z) (l : list T) : Z :=
  match l with
  | [] => consumed
  | _ :: rest => count_up (u64_add consumed 1) rest
  end.

(** What is delivered, followed by what is still queued, is what was
    accepted. *)
Definition fifo_inv (o : observed) : Prop :=
  delivered o ++ mQueue (queue o) = accepted o.

(** Nothing is stored, nothing was accepted and every [push] so far
    returned false. *)
Definition always_rejecting (o : observed) : Prop :=
  queue o = ctor 0
  /\ accepted o = []
  /\ Forall (fun r => r = false) (push_results o).

End Queue.

Arguments t : clear implicits.
Arguments op : clear implicits.
Arguments observed : clear implicits.

End LockedQueue.

(** ** ISOTPOverCANReceiver::receivePDU *)

Module ISOTPOverCANReceiver.

(** [#define MAX_PDU_SIZE 5000]. *)
Definition MAX_PDU_SIZE : Z := 5000.

(** [static_cast<int>] of a [ssize_t]: reduction to 32 bits, two's complement. *)
Definition static_cast_int (z : Z) : Z := (z + 2 ^ 31) mod 2 ^ 32 - 2 ^ 31.

(** [std::vector<uint8_t>::resize( n )]: truncates, or pads with zero bytes. *)
Definition resize (n : nat) (v : list byte) : list byte :=
  firstn n v ++ repeat x00 (n - length v).

(** What the kernel answers to [read] on the ISO-TP socket: an error, or the
    pending PDU (an empty one reads as end of file). *)
Inductive read_reply : Type :=
| ReadError
| ReadPDU (pdu : list byte).

(** [read( fd, buf, count )]: returns -1 and leaves the buffer alone on an
    error; otherwise copies at most [count] bytes of the PDU to the start of
    the buffer and returns how many. *)
Definition sys_read (reply : read_reply) (buf : list byte) (count : Z)
  : Z * list byte :=
  match reply with
  | ReadError => (-1, buf)
  | ReadPDU pdu =>
      let n := Nat.min (length pdu) (Nat.min (Z.to_nat count) (length buf)) in
      (Z.of_nat n, firstn n pdu ++ skipn n buf)
  end.

(** The answers of the operating system during one call: the value [poll]
    returns when it is called, and the answer to [read]. *)
Record socket_env : Type := mkEnv {
  poll_res : Z;
  read_answer : read_reply
}.

(** The one option [receivePDU] looks at. *)
Record ISOTPOverCANReceiverOptions : Type := mkOptions {
  mP2TimeoutMs : Z
}.

Section Receiver.

(** [P2_TIMEOUT_INFINITE] is declared in [datatypes/ISOTPOverCANOptions.h],
    which is not among the sources; it is a parameter of the model. *)
Variable P2_TIMEOUT_INFINITE : Z.

(** The part of [receivePDU] after the poll: resize, read, shrink. *)
Definition read_into (env : socket_env) (pduData : list byte)
  : bool * list byte :=
  let pduData1 := resize (Z.to_nat MAX_PDU_SIZE) pduData in
  let '(ret, pduData2) := sys_read (read_answer env) pduData1 MAX_PDU_SIZE in
  let bytesRead := static_cast_int ret in
  let pduData3 :=
    if bytesRead >? 0
    then resize (Z.to_nat bytesRead) pduData2
    else resize 0 pduData2 in
  (bytesRead >? 0, pduData3).

(** [bool ISOTPOverCANReceiver::receivePDU( std::vector<uint8_t> &pduData )]. *)
Definition receivePDU (mReceiverOptions : ISOTPOverCANReceiverOptions)
    (env : socket_env) (pduData : list byte) : bool * list byte :=
  if mP2TimeoutMs mReceiverOptions >? P2_TIMEOUT_INFINITE
  then
    let res := poll_res env in
    if res <=? 0 then (false, pduData) else read_into env pduData
  else read_into env pduData.

(** Whether the call gets as far as [read]. *)
Definition read_performed (mReceiverOptions : ISOTPOverCANReceiverOptions)
    (env : socket_env) : bool :=
  negb ((mP2TimeoutMs mReceiverOptions >? P2_TIMEOUT_INFINITE)
        && (poll_res env <=? 0)).

End Receiver.

(** The value [read] returns for a request of [MAX_PDU_SIZE] bytes. *)
Definition read_return (env : socket_env) : Z :=
  match read_answer env with
  | ReadError => -1
  | ReadPDU pdu => Z.min (Z.of_nat (length pdu)) MAX_PDU_SIZE
  end.

(** The bytes [read] delivers. *)
Definition read_bytes (env : socket_env) : list byte :=
  match read_answer env with
  | ReadError => []
  | ReadPDU pdu => firstn (Z.to_nat MAX_PDU_SIZE) pdu
  end.

End ISOTPOverCANReceiver.

(** ** CPUUsageInfo::reportCPUUsageInfo *)

Module CPUUsageInfo.

(** [struct rusage], the two [timeval] fields the function reads. *)
Record rusage : Type := mkRusage {
  ru_utime_tv_sec : Z;
  ru_utime_tv_usec : Z;
  ru_stime_tv_sec : Z;
  ru_stime_tv_usec : Z
}.

(** The answers of the operating system during one call: the return value
    of [getrusage] with the structure it fills, and [/proc/uptime]: [None]
    when the file cannot be opened, else the line [std::getline] reads. *)
Record os_env : Type := mkOs {
  getrusage_ret : Z;
  getrusage_usage : rusage;
  proc_uptime : option string
}.

(** The result of [sscanf] with four [%lu] directives: its return value and
    the four variables, which start at [0U] and keep that value when their
    directive is not reached. *)
Record scanned : Type := mkScanned {
  conversions : Z;
  uptimeSeconds : Z;
  uptimeFraction : Z;
  idleTimeSeconds : Z;
  idleTimeFraction : Z
}.

Section Report.

(** Double-precision arithmetic is kept abstract: the type, the conversions
    from [long] and [unsigned long], the operations and the two literals. *)
Variable double : Type.
Variable double_of_long : Z -> double.
Variable double_of_ulong : Z -> double.
Variable dadd dmul ddiv : double -> double -> double.
Variable d_1em6 d_100 : double.

(** [sscanf( stat.c_str(), "%lu.%lu %lu.%lu", ... )] of the C library. *)
Variable sscanf_uptime : string -> scanned.

Record t : Type := mk {
  mUserSpaceTime : double;
  mKernelSpaceTime : double;
  mIdleTime : double
}.

(** [bool CPUUsageInfo::reportCPUUsageInfo()]. *)
Definition reportCPUUsageInfo (self : t) (os : os_env) : bool * t :=
  if negb (getrusage_ret os =? 0) then (false, self)
  else
    let currentProcessUsage := getrusage_usage os in
    let userSpaceTime :=
      dadd (double_of_long (ru_utime_tv_sec currentProcessUsage))
           (dmul d_1em6 (double_of_long (ru_utime_tv_usec currentProcessUsage))) in
    let kernelSpaceTime :=
      dadd (double_of_long (ru_stime_tv_sec currentProcessUsage))
           (dmul d_1em6 (double_of_long (ru_stime_tv_usec currentProcessUsage))) in
    let idleTime :=
      match proc_uptime os with
      | Some stat =>
          let r := sscanf_uptime stat in
          if conversions r =? 4
          then dadd (double_of_ulong (uptimeSeconds r))
                    (ddiv (double_of_ulong (idleTimeFraction r)) d_100)
          else mIdleTime self
      | None => mIdleTime self
      end in
    (true, mk userSpaceTime kernelSpaceTime idleTime).

End Report.

(** *** A scanner for the format ["%lu.%lu %lu.%lu"]

    The C library is not part of the repository. This scanner follows the
    rules of [sscanf] for the one format string the function uses, so that
    [reportCPUUsageInfo] can be run on the text of [/proc/uptime]: [%lu]
    skips white space, takes an optional sign and at least one decimal
    digit; a magnitude above [ULONG_MAX] is stored as [ULONG_MAX], any other
    is negated modulo 2^64 behind a minus sign; a blank in the format skips
    any white space; [.] has to match literally. *)

Definition is_space (c : ascii) : bool :=
  let n := N_of_ascii c in
  (N.eqb n 32 || (N.leb 9 n && N.leb n 13))%bool.

Definition digit_of (c : ascii) : option Z :=
  let n := Z.of_N (N_of_ascii c) in
  if (48 <=? n) && (n <=? 57) then Some (n - 48) else None.

Fixpoint skip_spaces (s : string) : string :=
  match s with
  | String c rest => if is_space c then skip_spaces rest else s
  | EmptyString => s
  end.

Fixpoint scan_digits (s : string) (acc : Z) : Z * string :=
  match s with
  | String c rest =>
      match digit_of c with
      | Some d => scan_digits rest (10 * acc + d)
      | None => (acc, s)
      end
  | EmptyString => (acc, s)
  end.

Definition scan_sign (s : string) : bool * string :=
  match s with
  | String "-"%char rest => (true, rest)
  | String "+"%char rest => (false, rest)
  | _ => (false, s)
  end.

(** One [%lu] directive: the value and the rest of the input. *)
Definition scan_lu (s : string) : option (Z * string) :=
  let '(negative, s1) := scan_sign (skip_spaces s) in
  match s1 with
  | String c _ =>
      match digit_of c with
      | Some _ =>
          let '(v, rest) := scan_digits s1 0 in
          Some (if v >? UINT64_MAX then UINT64_MAX
                else if negative then u64_sub 0 v
                else v, rest)
      | None => None
      end
  | EmptyString => None
  end.

(** The literal [.] of the format. *)
Definition scan_dot (s : string) : option string :=
  match s with
  | String "."%char rest => Some rest
  | _ => None
  end.

Definition scan_uptime (stat : string) : scanned :=
  match scan_lu stat with
  | None =>
      mkScanned (match skip_spaces stat with EmptyString => -1 | _ => 0 end)
                0 0 0 0
  | Some (a, s1) =>
      match scan_dot s1 with
      | None => mkScanned 1 a 0 0 0
      | Some s2 =>
          match scan_lu s2 with
          | None => mkScanned 1 a 0 0 0
          | Some (b, s3) =>
              match scan_lu (skip_spaces s3) with
              | None => mkScanned 2 a b 0 0
              | Some (c, s4) =>
                  match scan_dot s4 with
                  | None => mkScanned 3 a b c 0
                  | Some s5 =>
                      match scan_lu s5 with
                      | None => mkScanned 3 a b c 0
                      | Some (d, _) => mkScanned 4 a b c d
                      end
                  end
              end
          end
      end
  end.

(** *** Symbolic doubles

    An instance of the arithmetic interface that records the expression
    evaluated instead of a number; it shows which fields a stored value was
    computed from. *)
Inductive expr : Type :=
| OfLong (z : Z)
| OfULong (z : Z)
| Lit1em6
| Lit100
| Add (a b : expr)
| Mul (a b : expr)
| Div (a b : expr).

Arguments mk {double}.
Arguments mUserSpaceTime {double}.
Arguments mKernelSpaceTime {double}.
Arguments mIdleTime {double}.

End CPUUsageInfo.

(** ** Trigger engine *)

Module TriggerEngine.

(** Modelled from the spec: the source of the inspection engine
    ([CollectionInspectionEngine]) is missing; only the declaration of the
    worker thread refers to it. The definitions below follow section 4.5 of
    the specification, "Trigger Engine", step by step for one condition. The
    result of evaluating the condition's expression, with [INVALID] already
    coerced to [false], is an input of the tick, as are the clock reading
    [now] and the publish queue. The snapshot carried by a trigger is left
    out; its [triggerTime] and [EventId] are kept. [last_eval] is the value
    of the latest evaluation: scenario 2 of section 8 (rising edge only,
    triggers at 2 and 5) needs it recorded on a skipped tick and on a firing
    one as well. *)

Record Condition : Type := mkCondition {
  minimumPublishIntervalMs : Z;
  afterDuration : Z;
  triggerOnlyOnRisingEdge : bool
}.

Record ConditionState : Type := mkState {
  last_eval : bool;
  last_trigger_ts : Z;
  pending_after : option Z
}.

Record TriggeredCollectionSchemeData : Type := mkTriggered {
  triggerTime : Z;
  eventID : Z
}.

Record Engine : Type := mkEngine {
  condition_state : ConditionState;
  publish_queue : LockedQueue.t TriggeredCollectionSchemeData;
  next_event_id : Z;
  dropped_triggers : Z
}.

Definition with_state (e : Engine) (st : ConditionState) : Engine :=
  mkEngine st (publish_queue e) (next_event_id e) (dropped_triggers e).

(** Modelled from the spec: step g, "Fire": a fresh event id,
    [triggerTime = now], push to the publish queue; on push failure the
    trigger is dropped and counted; [last_trigger_ts] is updated and
    [pending_after] cleared, as step g has it for a dropped trigger too. *)
Definition fire (e : Engine) (now : Z) (v : bool) : Engine :=
  let data := mkTriggered now (next_event_id e) in
  let '(pushed, q') := LockedQueue.push (publish_queue e) data in
  mkEngine (mkState v now None)
           q'
           (next_event_id e + 1)
           (if pushed then dropped_triggers e else dropped_triggers e + 1).

(** Modelled from the spec: steps b to g of the tick for one condition. The
    boolean of the result tells whether the condition fired. *)
Definition tick_condition (c : Condition) (e : Engine) (now : Z) (v : bool)
  : Engine * bool :=
  let st := condition_state e in
  let skip := with_state e (mkState v (last_trigger_ts st) (pending_after st)) in
  if triggerOnlyOnRisingEdge c && last_eval st then (skip, false)
  else if negb v then
    (with_state e (mkState v (last_trigger_ts st) None), false)
  else if now - last_trigger_ts st <? minimumPublishIntervalMs c then
    (skip, false)
  else
    match pending_after st with
    | None =>
        if afterDuration c >? 0
        then (with_state e (mkState v (last_trigger_ts st)
                                    (Some (now + afterDuration c))), false)
        else (fire e now v, true)
    | Some deadline =>
        if now <? deadline then (skip, false) else (fire e now v, true)
    end.

(** Modelled from the spec: a sequence of ticks, each with its clock reading
    and the value of the condition; the result lists the times at which the
    condition fired, oldest first. *)
Fixpoint run (c : Condition) (e : Engine) (ticks : list (Z * bool))
  : Engine * list Z :=
  match ticks with
  | [] => (e, [])
  | (now, v) :: rest =>
      let '(e1, fired) := tick_condition c e now v in
      let '(e2, later) := run c e1 rest in
      (e2, if fired then now :: later else later)
  end.

(** Each trigger time is at least [p] after the one before it; [prev] is the
    trigger time before the first of the list. *)
Fixpoint spaced (p prev : Z) (times : list Z) : Prop :=
  match times with
  | [] => True
  | t :: rest => prev + p <= t /\ spaced p t rest
  end.

(** The same with "strictly greater than the previous one plus [p]". *)
Fixpoint strictly_spaced (p prev : Z) (times : list Z) : Prop :=
  match times with
  | [] => True
  | t :: rest => prev + p < t /\ strictly_spaced p t rest
  end.

End TriggerEngine.

(** ** Signal values and collected signals *)

(** [SignalType] is declared in [SignalTypes.h]; its enumerators are the
    labels of the switch in the constructor of [CollectedSignal]. The build
    flag [FWE_FEATURE_VISION_SYSTEM_DATA] is taken as not defined, so the
    raw-buffer handle is absent. *)
Inductive SignalType : Type :=
| UINT8 | INT8 | UINT16 | INT16 | UINT32 | INT32 | UINT64 | INT64
| FLOAT | DOUBLE | BOOLEAN.

(** Conversion of an integer to an unsigned or to a signed type of [w] bits
    ([static_cast] between integral types is modular). *)
Definition to_unsigned (w : Z) (z : Z) : Z := z mod 2 ^ w.
Definition to_signed (w : Z) (z : Z) : Z :=
  (z + 2 ^ (w - 1)) mod 2 ^ w - 2 ^ (w - 1).

Module SignalValueWrapper.

Section Wrapper.

(** The C++ types [float] and [double]. *)
Variable float double : Type.

(** [union SignalValue]: the constructor tells which member was written
    last. *)
Inductive SignalValue : Type :=
| int64Val (z : Z)
| floatVal (f : float)
| doubleVal (d : double)
| boolVal (b : bool)
| uint8Val (z : Z)
| int8Val (z : Z)
| uint16Val (z : Z)
| int16Val (z : Z)
| uint32Val (z : Z)
| int32Val (z : Z)
| uint64Val (z : Z).

(** [struct SignalValueWrapper]. *)
Record t : Type := mk {
  value : SignalValue;
  type : SignalType
}.

(** [SignalValue value{ 0 }; SignalType type{ SignalType::DOUBLE };]: brace
    initialisation of the union sets its first member. *)
Definition default : t := mk (int64Val 0) DOUBLE.

(** [SignalValueWrapper &operator=( const double sigValue )]. *)
Definition assign_double (self : t) (sigValue : double) : t :=
  mk (doubleVal sigValue) DOUBLE.

(** [template <typename T> void setVal( const T sigValue, SignalType sigType )]:
    [value = sigValue] selects the [operator=] of [SignalValue] for [T],
    which writes the member of that type; the argument [member] is that
    member with its new content. *)
Definition setVal (self : t) (member : SignalValue) (sigType : SignalType) : t :=
  mk member sigType.

(** [SignalType getType() const]. *)
Definition getType (self : t) : SignalType := type self.

(** The signal type whose C++ type is the type of the member in use. *)
Definition member_type (v : SignalValue) : SignalType :=
  match v with
  | int64Val _ => INT64
  | floatVal _ => FLOAT
  | doubleVal _ => DOUBLE
  | boolVal _ => BOOLEAN
  | uint8Val _ => UINT8
  | int8Val _ => INT8
  | uint16Val _ => UINT16
  | int16Val _ => INT16
  | uint32Val _ => UINT32
  | int32Val _ => INT32
  | uint64Val _ => UINT64
  end.

(** The tag names the member in use. *)
Definition well_tagged (w : t) : Prop := member_type (value w) = type w.

(** The integer held by the member in use, when it is an integer member. *)
Definition integer_of (v : SignalValue) : option Z :=
  match v with
  | int64Val z | uint8Val z | int8Val z | uint16Val z | int16Val z
  | uint32Val z | int32Val z | uint64Val z => Some z
  | floatVal _ | doubleVal _ | boolVal _ => None
  end.

End Wrapper.

Arguments int64Val {float double}.
Arguments floatVal {float double}.
Arguments doubleVal {float double}.
Arguments boolVal {float double}.
Arguments uint8Val {float double}.
Arguments int8Val {float double}.
Arguments uint16Val {float double}.
Arguments int16Val {float double}.
Arguments uint32Val {float double}.
Arguments int32Val {float double}.
Arguments uint64Val {float double}.
Arguments mk {float double}.
Arguments value {float double}.
Arguments type {float double}.
Arguments default {float double}.
Arguments assign_double {float double}.
Arguments setVal {float double}.
Arguments getType {float double}.
Arguments member_type {float double}.
Arguments well_tagged {float double}.
Arguments integer_of {float double}.

End SignalValueWrapper.

Module CollectedSignal.

Import SignalValueWrapper.

(** The conversions [static_cast<U>( sigValue )] that the constructors apply
    to a value of the template parameter [T]. *)
Class StaticCast (float double T : Type) : Type := {
  cast_uint8 : T -> Z;
  cast_int8 : T -> Z;
  cast_uint16 : T -> Z;
  cast_int16 : T -> Z;
  cast_uint32 : T -> Z;
  cast_int32 : T -> Z;
  cast_uint64 : T -> Z;
  cast_int64 : T -> Z;
  cast_float : T -> float;
  cast_double : T -> double;
  cast_bool : T -> bool
}.

Section Signal.

Variable float double : Type.

(** [struct CollectedSignal]. *)
Record t : Type := mk {
  signalID : Z;
  receiveTime : Z;
  value : SignalValueWrapper.t float double
}.

Context {T : Type} `{StaticCast float double T}.

(** [CollectedSignal( SignalID, Timestamp, T sigValue )], the constructor
    kept for backward compatibility. *)
Definition ctor_double (signalIDIn receiveTimeIn : Z) (sigValue : T) : t :=
  mk signalIDIn receiveTimeIn
     (setVal default (doubleVal (cast_double sigValue)) DOUBLE).

(** [CollectedSignal( SignalID, Timestamp, T sigValue, SignalType sigType )]. *)
Definition ctor_typed (signalIDIn receiveTimeIn : Z) (sigValue : T)
    (sigType : SignalType) : t :=
  mk signalIDIn receiveTimeIn
     match sigType with
     | UINT8 => setVal default (uint8Val (cast_uint8 sigValue)) sigType
     | INT8 => setVal default (int8Val (cast_int8 sigValue)) sigType
     | UINT16 => setVal default (uint16Val (cast_uint16 sigValue)) sigType
     | INT16 => setVal default (int16Val (cast_int16 sigValue)) sigType
     | UINT32 => setVal default (uint32Val (cast_uint32 sigValue)) sigType
     | INT32 => setVal default (int32Val (cast_int32 sigValue)) sigType
     | UINT64 => setVal default (uint64Val (cast_uint64 sigValue)) sigType
     | INT64 => setVal default (int64Val (cast_int64 sigValue)) sigType
     | FLOAT => setVal default (floatVal (cast_float sigValue)) sigType
     | DOUBLE => setVal default (doubleVal (cast_double sigValue)) sigType
     | BOOLEAN => setVal default (boolVal (cast_bool sigValue)) sigType
     end.

(** [SignalType getType() const] and [SignalValueWrapper getValue() const]. *)
Definition getType (self : t) : SignalType :=
  SignalValueWrapper.getType (value self).
Definition getValue (self : t) : SignalValueWrapper.t float double :=
  value self.

End Signal.

Arguments mk {float double}.
Arguments signalID {float double}.
Arguments receiveTime {float double}.
Arguments value {float double}.
Arguments getType {float double}.
Arguments getValue {float double}.

(** The constructors instantiated at [T = int64_t]: integral conversions are
    modular, the conversion to [bool] tests against zero, and the two
    conversions to floating point are those of the arithmetic at hand. *)
Definition int64_cast {float double : Type}
    (float_of_int64 : Z -> float) (double_of_int64 : Z -> double)
  : StaticCast float double Z := {|
  cast_uint8 := to_unsigned 8;
  cast_int8 := to_signed 8;
  cast_uint16 := to_unsigned 16;
  cast_int16 := to_signed 16;
  cast_uint32 := to_unsigned 32;
  cast_int32 := to_signed 32;
  cast_uint64 := to_unsigned 64;
  cast_int64 := to_signed 64;
  cast_float := float_of_int64;
  cast_double := double_of_int64;
  cast_bool := fun z => negb (z =? 0)
|}.

(** The values an integer signal type can hold; [None] for the other types. *)
Definition integer_range (sigType : SignalType) : option (Z * Z) :=
  match sigType with
  | UINT8 => Some (0, 2 ^ 8 - 1)
  | INT8 => Some (- 2 ^ 7, 2 ^ 7 - 1)
  | UINT16 => Some (0, 2 ^ 16 - 1)
  | INT16 => Some (- 2 ^ 15, 2 ^ 15 - 1)
  | UINT32 => Some (0, 2 ^ 32 - 1)
  | INT32 => Some (- 2 ^ 31, 2 ^ 31 - 1)
  | UINT64 => Some (0, 2 ^ 64 - 1)
  | INT64 => Some (- 2 ^ 63, 2 ^ 63 - 1)
  | FLOAT | DOUBLE | BOOLEAN => None
  end.

End CollectedSignal.

(** ** ISOTPOverCANReceiver: connect, disconnect, isAlive *)

Module ISOTPOverCANReceiverSocket.

Import ISOTPOverCANReceiver.

(** The options [connect] looks at; they belong to the same
    [ISOTPOverCANReceiverOptions] structure as [mP2TimeoutMs]. *)
Record ConnectOptions : Type := mkConnectOptions {
  mSourceCANId : Z;
  mDestinationCANId : Z;
  mIsExtendedId : bool;
  mBlockSize : Z;
  mFrameSeparationTimeMs : Z;
  mSocketCanIFName : string
}.

(** The system calls of [connect] and [disconnect], with the arguments the
    function computes. *)
Inductive syscall : Type :=
| SysSocket
| SysSetOpts (fd : Z) (flags : Z)
| SysSetRecvFc (fd : Z) (bs stmin wftmax : Z)
| SysIfNametoindex (name : string)
| SysBind (fd : Z) (tx_id rx_id : Z) (can_ifindex : Z)
| SysClose (fd : Z).

(** What the kernel returns to each of them. *)
Record kernel : Type := mkKernel {
  socket_ret : Z;
  setsockopt_opts_ret : Z;
  setsockopt_recv_fc_ret : Z;
  if_nametoindex_ret : Z;
  bind_ret : Z;
  close_ret : Z
}.

Section Connect.

(** [CAN_ISOTP_EXTEND_ADDR] and [CAN_ISOTP_RX_EXT_ADDR] come from
    [linux/can/isotp.h]. *)
Variable CAN_ISOTP_EXTEND_ADDR CAN_ISOTP_RX_EXT_ADDR : Z.

(** [bool ISOTPOverCANReceiver::connect()]: the result, the value left in
    [mSocket], and the system calls made, in order. Logging is left out. *)
Definition connect (mReceiverOptions : ConnectOptions) (k : kernel)
  : bool * Z * list syscall :=
  let tx_id := mSourceCANId mReceiverOptions in
  let rx_id := mDestinationCANId mReceiverOptions in
  let flags :=
    if mIsExtendedId mReceiverOptions
    then Z.lor 0 (Z.lor CAN_ISOTP_EXTEND_ADDR CAN_ISOTP_RX_EXT_ADDR)
    else 0 in
  let bs := Z.land (mBlockSize mReceiverOptions) 0xFF in
  let stmin := Z.land (mFrameSeparationTimeMs mReceiverOptions) 0xFF in
  let wftmax := 0x0 in
  let mSocket := socket_ret k in
  if mSocket <? 0 then (false, mSocket, [SysSocket])
  else
    let retOptFlag := setsockopt_opts_ret k in
    let retFrameCtrFlag := setsockopt_recv_fc_ret k in
    let calls :=
      [SysSocket; SysSetOpts mSocket flags;
       SysSetRecvFc mSocket bs stmin wftmax] in
    if (retOptFlag <? 0) || (retFrameCtrFlag <? 0)
    then (false, mSocket, calls)
    else
      let can_ifindex := static_cast_int (if_nametoindex_ret k) in
      let calls :=
        calls ++ [SysIfNametoindex (mSocketCanIFName mReceiverOptions);
                  SysBind mSocket tx_id rx_id can_ifindex] in
      if bind_ret k <? 0
      then (false, mSocket, calls ++ [SysClose mSocket])
      else (true, mSocket, calls).

End Connect.

(** [bool ISOTPOverCANReceiver::disconnect()]. *)
Definition disconnect (mSocket : Z) (k : kernel) : bool * list syscall :=
  if close_ret k <? 0
  then (false, [SysClose mSocket])
  else (true, [SysClose mSocket]).

(** Whether a call closes a descriptor. *)
Definition is_close (c : syscall) : bool :=
  match c with
  | SysClose _ => true
  | _ => false
  end.

End ISOTPOverCANReceiverSocket.

(** ** CPUUsageInfo::reportPerThreadUsageData *)

Module ThreadCPUUsage.

(** [LONG_MAX] on the 64-bit Linux targets. *)
Definition LONG_MAX : Z := 2 ^ 63 - 1.

(** [uint32_t] increment. *)
Definition u32_incr (z : Z) : Z := (z + 1) mod 2 ^ 32.

(** *** The scan of one [stat] line *)

(** The variables of the character loop. *)
Record scan_state : Type := mkScan {
  currentField : Z;
  commStringFinished : bool;
  comm : list ascii;
  utimeString : list ascii;
  stimeString : list ascii
}.

(** [currentField = 1], [commStringFinished = false], three empty strings. *)
Definition scan_init : scan_state := mkScan 1 false [] [] [].

(** The body of [while ( *c != '\0' )] for one character. *)
Definition scan_char (st : scan_state) (c : ascii) : scan_state :=
  if currentField st =? 2 then
    if commStringFinished st && Ascii.eqb c " " then
      mkScan (u32_incr (currentField st)) (commStringFinished st)
             (comm st) (utimeString st) (stimeString st)
    else if Ascii.eqb c ")" then
      mkScan (currentField st) true
             (comm st) (utimeString st) (stimeString st)
    else if negb (Ascii.eqb c "(") then
      mkScan (currentField st) (commStringFinished st)
             (comm st ++ [c]) (utimeString st) (stimeString st)
    else st
  else if Ascii.eqb c " " then
    mkScan (u32_incr (currentField st)) (commStringFinished st)
           (comm st) (utimeString st) (stimeString st)
  else if currentField st =? 14 then
    mkScan (currentField st) (commStringFinished st)
           (comm st) (utimeString st ++ [c]) (stimeString st)
  else if currentField st =? 15 then
    mkScan (currentField st) (commStringFinished st)
           (comm st) (utimeString st) (stimeString st ++ [c])
  else st.

(** The loop over the characters of [statContent], up to the first NUL. *)
Fixpoint scan_stat (st : scan_state) (statContent : list ascii) : scan_state :=
  match statContent with
  | [] => st
  | c :: rest =>
      if Ascii.eqb c zero then st else scan_stat (scan_char st c) rest
  end.

(** A field of a [stat] line: no blank and no NUL in it. *)
Definition is_word (w : list ascii) : Prop :=
  Forall (fun c => c <> " "%char /\ c <> zero) w.

(** A thread name the kernel can print between the parentheses so that it
    reads back: no parenthesis and no NUL in it (blanks are fine). *)
Definition is_plain_comm (name : list ascii) : Prop :=
  Forall (fun c => c <> "("%char /\ c <> ")"%char /\ c <> zero) name.

(** The line the kernel prints for a thread: the pid, the name in
    parentheses, the fields 3 to 13, [utime], [stime], and further fields. *)
Definition stat_line (pid name : list ascii) (fields_3_to_13 : list (list ascii))
    (utime stime : list ascii) (more : list (list ascii)) : list ascii :=
  pid ++ " "%char :: "("%char :: name ++ ")"%char :: " "%char
      :: concat (map (fun w => w ++ [" "%char]) fields_3_to_13)
      ++ utime ++ " "%char :: stime
      ++ concat (map (fun w => " "%char :: w) more).

(** What the loop has collected is clean: no parenthesis in the name, no
    blank in the two time strings, no NUL in any of them. *)
Definition collected_clean (st : scan_state) : Prop :=
  is_plain_comm (comm st)
  /\ is_word (utimeString st)
  /\ is_word (stimeString st).

(** The characters of a string literal. *)
Definition chars (s : string) : list ascii := list_ascii_of_string s.

(** *** The directory walk *)

(** [fgets( buf, n, fp )]: [NULL] at end of file; else at most [n - 1]
    characters, stopping behind the first newline. *)
Fixpoint take_line (k : nat) (content : list ascii) : list ascii :=
  match k, content with
  | O, _ => []
  | _, [] => []
  | S k', c :: rest =>
      if Ascii.eqb c "010" then [c] else c :: take_line k' rest
  end.

Definition fgets (n : Z) (content : list ascii) : option (list ascii) :=
  match content with
  | [] => None
  | _ :: _ => Some (take_line (Z.to_nat (n - 1)) content)
  end.

(** An entry of [/proc/self/task]: its name, and the content of its [stat]
    file, [None] when [fopen] fails. *)
Record task_entry : Type := mkTask {
  d_name : list ascii;
  stat_file : option (list ascii)
}.

(** The answers of the operating system: the entries [readdir] lists, [None]
    when [opendir] fails, and [sysconf( _SC_CLK_TCK )]. *)
Record os_env : Type := mkOs {
  task_dir : option (list task_entry);
  clk_tck : Z
}.

Section Report.

(** [MAX_PROC_STAT_FILE_SIZE_READ] and the types [ThreadId] and
    [ThreadCPUUsageInfo] are declared in [CPUUsageInfo.h]; [strtol] and
    [strtoll] belong to the C library; double arithmetic is abstract. *)
Variable MAX_PROC_STAT_FILE_SIZE_READ : Z.
Variable to_ThreadId : Z -> Z.
Variable strtol strtoll : list ascii -> Z.
Variable double : Type.
Variable double_of_long : Z -> double.
Variable dmul ddiv : double -> double -> double.
Variable d_1 : double.

(** The four members of [ThreadCPUUsageInfo], in the order of the
    initialiser. *)
Record ThreadCPUUsageInfo : Type := mkInfo {
  info_tid : Z;
  info_comm : list ascii;
  info_utime : double;
  info_stime : double
}.

(** [taskFileName.length() > 0 && taskFileName[0] != '.']. *)
Definition is_task_name (taskFileName : list ascii) : bool :=
  match taskFileName with
  | [] => false
  | c :: _ => negb (Ascii.eqb c ".")
  end.

(** The body of the [readdir] loop for one entry. *)
Definition report_task (clockTickFrequency : double) (dp : task_entry)
    (threadCPUUsageInfos : list ThreadCPUUsageInfo) : list ThreadCPUUsageInfo :=
  let taskFileName := d_name dp in
  if is_task_name taskFileName then
    match stat_file dp with
    | Some content =>
        let tid := to_ThreadId (strtol taskFileName) in
        match fgets (MAX_PROC_STAT_FILE_SIZE_READ - 1) content with
        | Some statContent =>
            let st := scan_stat scan_init statContent in
            let uTime := strtoll (utimeString st) in
            let sTime := strtoll (stimeString st) in
            if negb (uTime =? LONG_MAX) && (uTime >=? 0)
               && negb (sTime =? LONG_MAX) && (sTime >=? 0)
            then threadCPUUsageInfos
                 ++ [mkInfo tid (comm st)
                            (dmul (double_of_long uTime) clockTickFrequency)
                            (dmul (double_of_long sTime) clockTickFrequency)]
            else threadCPUUsageInfos
        | None => threadCPUUsageInfos
        end
    | None => threadCPUUsageInfos
    end
  else threadCPUUsageInfos.

(** [bool CPUUsageInfo::reportPerThreadUsageData( ThreadCPUUsageInfos & )]. *)
Definition reportPerThreadUsageData (os : os_env)
    (threadCPUUsageInfos : list ThreadCPUUsageInfo)
  : bool * list ThreadCPUUsageInfo :=
  match task_dir os with
  | None => (false, threadCPUUsageInfos)
  | Some entries =>
      let cleared : list ThreadCPUUsageInfo := [] in
      let clockTickFrequency := ddiv d_1 (double_of_long (clk_tck os)) in
      (true,
       fold_left (fun infos dp => report_task clockTickFrequency dp infos)
                 entries cleared)
  end.

(** An entry of the directory that yields a report, and the report. *)
Definition reported (clockTickFrequency : double) (dp : task_entry)
  : option ThreadCPUUsageInfo :=
  match report_task clockTickFrequency dp [] with
  | [] => None
  | info :: _ => Some info
  end.

End Report.

Arguments info_tid {double}.
Arguments info_comm {double}.
Arguments info_utime {double}.
Arguments info_stime {double}.

End ThreadCPUUsage.

(** * Properties *)

(** ** Machine arithmetic *)

Lemma u64_add_small (a b : Z) :
  0 <= a + b <= UINT64_MAX -> u64_add a b = a + b.
Proof.
  unfold u64_add, UINT64_MAX. intros H. apply Z.mod_small. lia.
Qed.

Lemma u64_sub_small (a b : Z) :
  0 <= a - b <= UINT64_MAX -> u64_sub a b = a - b.
Proof.
  unfold u64_sub, UINT64_MAX. intros H. apply Z.mod_small. lia.
Qed.

(** ** Constants *)

(** C7: the compile-time constants have the values the specification lists;
    [ALL_CONDITIONS], written [0xFFFFFFFF] in the header, is the largest
    [uint32_t], and [AWS_IOT_MAX_MESSAGE_SIZE] is 128 KiB. *)
Theorem configuration_constants :
  Constants.MAX_NUMBER_OF_ACTIVE_CONDITION = 256
  /\ Constants.ALL_CONDITIONS = 4294967295
  /\ Constants.ALL_CONDITIONS = UINT32_MAX
  /\ Constants.MAX_EQUATION_DEPTH = 10
  /\ Constants.MAX_DIFFERENT_SIGNAL_IDS = 50000
  /\ Constants.MAXIMUM_IOT_SDK_HEAP_MEMORY_BYTES = 10000000
  /\ Constants.AWS_IOT_MAX_MESSAGE_SIZE = 131072
  /\ Constants.AWS_IOT_MAX_MESSAGE_SIZE = 128 * 1024.
Proof. repeat split. Qed.

(** ** LockedQueue *)

Module LockedQueueFacts.

Import LockedQueue.

Section Facts.

Context {T : Type}.
Variable T_default : T.

Implicit Types (q : LockedQueue.t T) (o : observed T).

Lemma size_nonneg q : 0 <= size q.
Proof. unfold size. lia. Qed.

Lemma size_app q (v : T) :
  Z.of_nat (length (mQueue q ++ [v])) = size q + 1.
Proof. unfold size. rewrite length_app. simpl. lia. Qed.

(** *** push *)

Lemma push_full q v :
  (u64_add (size q) 1 >? mMaxSize q) = true -> push q v = (false, q).
Proof. unfold push. intros ->. reflexivity. Qed.

Lemma push_room q v :
  (u64_add (size q) 1 >? mMaxSize q) = false ->
  push q v = (true, mk (mMaxSize q) (mQueue q ++ [v])).
Proof. unfold push. intros ->. reflexivity. Qed.

Lemma push_cases q v :
  push q v = (false, q)
  \/ push q v = (true, mk (mMaxSize q) (mQueue q ++ [v])).
Proof.
  destruct (u64_add (size q) 1 >? mMaxSize q) eqn:E.
  - left. now apply push_full.
  - right. now apply push_room.
Qed.

Lemma push_no_wrap q :
  size_representable q -> u64_add (size q) 1 = size q + 1.
Proof.
  unfold size_representable, SIZE_MAX. intros H.
  apply u64_add_small. pose proof (size_nonneg q). unfold UINT64_MAX. lia.
Qed.

Lemma push_mMaxSize q v : mMaxSize (snd (push q v)) = mMaxSize q.
Proof. destruct (push_cases q v) as [-> | ->]; reflexivity. Qed.

(** *** pop *)

Lemma pop_empty (m : Z) (element : T) :
  pop (mk m []) element = (false, element, mk m []).
Proof. reflexivity. Qed.

Lemma pop_front (m : Z) (x : T) (l : list T) (element : T) :
  pop (mk m (x :: l)) element = (true, x, mk m l).
Proof. reflexivity. Qed.

(** *** consumeAll *)

Lemma count_up_small (l : list T) : forall consumed,
  0 <= consumed ->
  consumed + Z.of_nat (length l) <= SIZE_MAX ->
  count_up consumed l = consumed + Z.of_nat (length l).
Proof.
  induction l as [|x l IH]; intros consumed Hc Hle; simpl in *.
  - lia.
  - rewrite u64_add_small by (unfold UINT64_MAX, SIZE_MAX in *; lia).
    rewrite IH; lia.
Qed.

Lemma consumeAll_loop_spec {S : Type} (functor : T -> S -> S) (l : list T) :
  forall (m : Z) (element : T) (consumed : Z) (s : S),
    consumeAll_loop functor (mk m l) element consumed s
    = (count_up consumed l, mk m [], fold_left (fun s e => functor e s) l s).
Proof.
  induction l as [|x l IH]; intros m element consumed s.
  - simp consumeAll_loop. reflexivity.
  - simp consumeAll_loop. cbn. apply IH.
Qed.

Lemma consumeAll_spec {S : Type} (functor : T -> S -> S) q (s : S) :
  consumeAll T_default functor q s
  = (count_up 0 (mQueue q), mk (mMaxSize q) [],
     fold_left (fun s e => functor e s) (mQueue q) s).
Proof.
  unfold consumeAll. destruct q as [m l]. apply consumeAll_loop_spec.
Qed.

Lemma fold_record_element (l log : list T) :
  fold_left (fun s e => record_element e s) l log = log ++ l.
Proof.
  revert log. induction l as [|x l IH]; intros log; simpl.
  - now rewrite app_nil_r.
  - rewrite IH. unfold record_element. now rewrite <- app_assoc.
Qed.

(** *** Runs *)

Lemma run_snoc o (ops : list (op T)) (a : op T) :
  run T_default o (ops ++ [a]) = step T_default (run T_default o ops) a.
Proof. unfold run. now rewrite fold_left_app. Qed.

Lemma step_fifo_inv o (a : op T) :
  fifo_inv o -> fifo_inv (step T_default o a).
Proof.
  unfold fifo_inv. intros H. destruct a as [v| | |]; simpl.
  - destruct (push_cases (queue o) v) as [-> | ->]; simpl.
    + exact H.
    + now rewrite app_assoc, H.
  - destruct o as [[m [|x l]] acc del res]; simpl in *.
    + exact H.
    + now rewrite <- app_assoc.
  - rewrite consumeAll_spec, fold_record_element. simpl.
    now rewrite app_nil_r.
  - exact H.
Qed.

Lemma run_fifo_inv (ops : list (op T)) : forall o,
  fifo_inv o -> fifo_inv (run T_default o ops).
Proof.
  induction ops as [|a ops IH]; intros o H; simpl.
  - exact H.
  - apply IH. now apply step_fifo_inv.
Qed.

End Facts.

(** C2: on a queue within its capacity, [push] returns false exactly when
    the queue already holds [mMaxSize] elements, and then the queue is
    unchanged; when it returns true the element is appended behind the
    elements already stored, none of which changes. *)
Theorem push_false_iff_full {T : Type} (q : LockedQueue.t T) (v : T) :
  within_capacity q ->
  size_representable q ->
  (fst (push q v) = false <-> size q = mMaxSize q)
  /\ (fst (push q v) = false -> snd (push q v) = q)
  /\ (fst (push q v) = true ->
      snd (push q v) = mk (mMaxSize q) (mQueue q ++ [v])).
Proof.
  unfold within_capacity. intros Hcap Hrep.
  pose proof (push_no_wrap q Hrep) as Hadd.
  destruct (u64_add (size q) 1 >? mMaxSize q) eqn:E.
  - rewrite (push_full q v E). simpl.
    rewrite Hadd in E. apply Z.gtb_lt in E.
    repeat split; intros; try reflexivity; try discriminate; lia.
  - rewrite (push_room q v E). simpl.
    rewrite Hadd, Z.gtb_ltb in E. apply Z.ltb_ge in E.
    repeat split; intros; try reflexivity; try discriminate; lia.
Qed.

Lemma push_false_iff_full_witness :
  let q := mk 2 [10%nat; 20%nat] in
  within_capacity q /\ size_representable q
  /\ (fst (push q 30%nat) = false <-> size q = mMaxSize q)
  /\ (fst (push q 30%nat) = false -> snd (push q 30%nat) = q).
Proof.
  intros q.
  assert (Hc : within_capacity q) by (unfold within_capacity, size, q; simpl; lia).
  assert (Hr : size_representable q) by reflexivity.
  split; [exact Hc|]. split; [exact Hr|].
  destruct (push_false_iff_full q 30%nat Hc Hr) as [H1 [H2 _]].
  split; [exact H1 | exact H2].
Defined.

(** C3: over every sequence of operations on a queue constructed empty, the
    elements handed out (by [pop] and to the functor of [consumeAll]),
    followed by the elements still stored, are the elements whose [push]
    returned true, in the order of their pushes: each is handed out once and
    in enqueue order. [pop] on an empty queue returns false at once, writes
    no element and leaves the queue empty; on any other queue it returns
    true with the front element and removes it. *)
Theorem pop_is_fifo {T : Type} (T_default : T) (maxSize : Z)
    (ops : list (op T)) :
  (let o := run T_default (start maxSize) ops in
   delivered o ++ mQueue (queue o) = accepted o)
  /\ (forall (m : Z) (element : T),
        pop (mk m []) element = (false, element, mk m []))
  /\ (forall (m : Z) (x : T) (l : list T) (element : T),
        pop (mk m (x :: l)) element = (true, x, mk m l)).
Proof.
  split; [|split].
  - apply (run_fifo_inv T_default ops (start maxSize)). reflexivity.
  - intros. apply pop_empty.
  - intros. apply pop_front.
Qed.

(** *** The capacity invariant *)

Section Capacity.

Context {T : Type}.
Variable T_default : T.

Lemma ctor_within_capacity (maxSize : Z) :
  0 <= maxSize -> within_capacity (ctor maxSize : LockedQueue.t T).
Proof. unfold within_capacity, size. simpl. lia. Qed.

Lemma push_within_capacity (q : LockedQueue.t T) (v : T) :
  within_capacity q -> size_representable q ->
  within_capacity (snd (push q v)).
Proof.
  unfold within_capacity. intros Hcap Hrep.
  destruct (u64_add (size q) 1 >? mMaxSize q) eqn:E.
  - rewrite (push_full q v E). exact Hcap.
  - rewrite (push_room q v E). unfold size at 1. simpl.
    rewrite size_app. rewrite (push_no_wrap q Hrep), Z.gtb_ltb in E.
    apply Z.ltb_ge in E. exact E.
Qed.

Lemma pop_within_capacity (q : LockedQueue.t T) (element : T) :
  within_capacity q -> within_capacity (snd (pop q element)).
Proof.
  unfold within_capacity, size, pop. destruct q as [m [|x l]]; simpl; lia.
Qed.

Lemma consumeAll_within_capacity {S : Type} (functor : T -> S -> S)
    (q : LockedQueue.t T) (s : S) :
  within_capacity q ->
  within_capacity (snd (fst (consumeAll T_default functor q s))).
Proof.
  rewrite consumeAll_spec. unfold within_capacity, size. simpl. lia.
Qed.

Lemma step_mMaxSize (o : observed T) (a : op T) :
  mMaxSize (queue (step T_default o a)) = mMaxSize (queue o).
Proof.
  destruct a as [v| | |]; simpl.
  - destruct (push_cases (queue o) v) as [-> | ->]; reflexivity.
  - destruct o as [[m [|x l]] acc del res]; reflexivity.
  - rewrite consumeAll_spec. reflexivity.
  - reflexivity.
Qed.

Lemma step_within_capacity (o : observed T) (a : op T) :
  mMaxSize (queue o) < SIZE_MAX ->
  within_capacity (queue o) ->
  within_capacity (queue (step T_default o a)).
Proof.
  intros Hmax Hcap. destruct a as [v| | |]; simpl.
  - pose proof (push_within_capacity (queue o) v Hcap) as H.
    destruct (push (queue o) v) as [ok q'] eqn:E. simpl in *.
    apply H. unfold size_representable, within_capacity in *. lia.
  - pose proof (pop_within_capacity (queue o) T_default Hcap) as H.
    destruct (pop (queue o) T_default) as [[ok e] q'] eqn:E. exact H.
  - pose proof (consumeAll_within_capacity record_element (queue o)
                  (delivered o) Hcap) as H.
    destruct (consumeAll T_default record_element (queue o) (delivered o))
      as [[n q'] log] eqn:E. exact H.
  - exact Hcap.
Qed.

Lemma run_within_capacity (ops : list (op T)) : forall o : observed T,
  mMaxSize (queue o) < SIZE_MAX ->
  within_capacity (queue o) ->
  within_capacity (queue (run T_default o ops)).
Proof.
  induction ops as [|a ops IH]; intros o Hmax Hcap; simpl.
  - exact Hcap.
  - apply IH.
    + now rewrite step_mMaxSize.
    + now apply step_within_capacity.
Qed.

End Capacity.

(** C4: the number of stored elements never exceeds [mMaxSize]. The
    invariant [size <= mMaxSize] holds for the queue the constructor builds
    and is preserved by [push], by [pop] and by [consumeAll]; hence it holds
    after every sequence of operations on a queue constructed with a
    capacity below [SIZE_MAX]. *)
Theorem size_never_exceeds_capacity {T : Type} (T_default : T) :
  (forall maxSize : Z,
      0 <= maxSize -> within_capacity (ctor maxSize : LockedQueue.t T))
  /\ (forall (q : LockedQueue.t T) (v : T),
        within_capacity q -> size_representable q ->
        within_capacity (snd (push q v)))
  /\ (forall (q : LockedQueue.t T) (element : T),
        within_capacity q -> within_capacity (snd (pop q element)))
  /\ (forall (S : Type) (functor : T -> S -> S) (q : LockedQueue.t T) (s : S),
        within_capacity q ->
        within_capacity (snd (fst (consumeAll T_default functor q s))))
  /\ (forall (maxSize : Z) (ops : list (op T)),
        0 <= maxSize < SIZE_MAX ->
        within_capacity (queue (run T_default (start maxSize) ops))).
Proof.
  repeat split.
  - intros. now apply ctor_within_capacity.
  - intros. now apply push_within_capacity.
  - intros. now apply pop_within_capacity.
  - intros. now apply consumeAll_within_capacity.
  - intros maxSize ops [Hlo Hhi]. apply run_within_capacity.
    + exact Hhi.
    + now apply ctor_within_capacity.
Qed.

Lemma size_never_exceeds_capacity_witness :
  within_capacity (ctor 2 : LockedQueue.t nat)
  /\ within_capacity (snd (push (mk 2 [7%nat]) 8%nat))
  /\ within_capacity (snd (push (mk 2 [7%nat; 8%nat]) 9%nat))
  /\ within_capacity (snd (pop (mk 2 [7%nat; 8%nat]) 0%nat))
  /\ within_capacity
       (snd (fst (consumeAll 0%nat (fun e s => (s + e)%nat)
                             (mk 2 [7%nat; 8%nat]) 0%nat)))
  /\ within_capacity
       (queue (run 0%nat (start 2)
                   [OpPush 1%nat; OpPush 2%nat; OpPush 3%nat; OpPop;
                    OpPush 4%nat; OpConsumeAll; OpIsEmpty])).
Proof.
  destruct (size_never_exceeds_capacity 0%nat) as [H1 [H2 [H3 [H4 H5]]]].
  assert (C1 : within_capacity (mk 2 [7%nat]))
    by (unfold within_capacity, size; simpl; lia).
  assert (C2 : within_capacity (mk 2 [7%nat; 8%nat]))
    by (unfold within_capacity, size; simpl; lia).
  repeat split.
  - apply H1. lia.
  - apply H2; [exact C1 | reflexivity].
  - apply H2; [exact C2 | reflexivity].
  - apply H3. exact C2.
  - apply H4. exact C2.
  - apply H5. unfold SIZE_MAX. lia.
Defined.

(** C5: on a queue holding [n] elements, [consumeAll] applies the functor
    to each of them, front first, returns [n] and leaves the queue empty. *)
Theorem consumeAll_applies_in_order {T S : Type} (T_default : T)
    (functor : T -> S -> S) (q : LockedQueue.t T) (s : S) :
  size q <= SIZE_MAX ->
  consumeAll T_default functor q s
  = (size q, mk (mMaxSize q) [],
     fold_left (fun acc e => functor e acc) (mQueue q) s).
Proof.
  intros Hn. rewrite consumeAll_spec.
  rewrite count_up_small; unfold size in *; try lia. reflexivity.
Qed.

Lemma consumeAll_applies_in_order_witness :
  let q := mk 5 [3%nat; 1%nat; 2%nat] in
  size q <= SIZE_MAX
  /\ consumeAll 0%nat (fun e log => log ++ [e]) q []
     = (3, mk 5 [], [3%nat; 1%nat; 2%nat]).
Proof.
  intros q.
  assert (Hn : size q <= SIZE_MAX) by (unfold size, q, SIZE_MAX; simpl; lia).
  split; [exact Hn|].
  exact (consumeAll_applies_in_order 0%nat (fun e log => log ++ [e]) q [] Hn).
Defined.

(** *** Capacity zero *)

Section ZeroCapacity.

Context {T : Type}.
Variable T_default : T.

Lemma push_zero_capacity (v : T) : push (ctor 0) v = (false, ctor 0).
Proof. reflexivity. Qed.

Lemma step_always_rejecting (o : observed T) (a : op T) :
  always_rejecting o -> always_rejecting (step T_default o a).
Proof.
  unfold always_rejecting. intros [Hq [Ha Hr]].
  destruct a as [v| | |]; simpl.
  - rewrite Hq, push_zero_capacity. simpl.
    repeat split; try assumption.
    apply Forall_app. split; [exact Hr | now constructor].
  - rewrite Hq. simpl. repeat split; assumption.
  - rewrite consumeAll_spec, Hq. simpl. repeat split; assumption.
  - repeat split; assumption.
Qed.

Lemma run_always_rejecting (ops : list (op T)) : forall o : observed T,
  always_rejecting o -> always_rejecting (run T_default o ops).
Proof.
  induction ops as [|a ops IH]; intros o H; simpl.
  - exact H.
  - apply IH. now apply step_always_rejecting.
Qed.

End ZeroCapacity.

(** C8: a queue constructed with [maxSize = 0] rejects every [push]: the
    first [push] returns false and changes nothing, and after every sequence
    of operations the queue is still empty, nothing was accepted and every
    [push] of the sequence returned false. *)
Theorem zero_capacity_rejects_every_push {T : Type} (T_default : T)
    (ops : list (op T)) :
  (forall v : T, push (ctor 0) v = (false, ctor 0))
  /\ (let o := run T_default (start 0) ops in
      mQueue (queue o) = []
      /\ accepted o = []
      /\ Forall (fun r => r = false) (push_results o)).
Proof.
  split.
  - intros v. reflexivity.
  - destruct (run_always_rejecting T_default ops (start 0)) as [Hq [Ha Hr]].
    + repeat split; constructor.
    + simpl. rewrite Hq. repeat split; assumption.
Qed.

(** Scenario 5 of section 8: capacity 2, three pushes without draining. *)
Example scenario_queue_overflow :
  push_results
    (run 0%nat (start 2) [OpPush 1%nat; OpPush 2%nat; OpPush 3%nat])
  = [true; true; false].
Proof. reflexivity. Qed.

End LockedQueueFacts.

(** ** Trigger engine *)

Module TriggerEngineFacts.

Import TriggerEngine.

Lemma fire_last_trigger_ts (e : Engine) (now : Z) (v : bool) :
  last_trigger_ts (condition_state (fire e now v)) = now.
Proof.
  unfold fire. destruct (LockedQueue.push _ _) as [pushed q']. reflexivity.
Qed.

(** A tick that fires passed the gate of step d, and records [now]. *)
Lemma tick_fired (c : Condition) (e e' : Engine) (now : Z) (v : bool) :
  tick_condition c e now v = (e', true) ->
  last_trigger_ts (condition_state e) + minimumPublishIntervalMs c <= now
  /\ last_trigger_ts (condition_state e') = now.
Proof.
  unfold tick_condition.
  destruct (triggerOnlyOnRisingEdge c && last_eval (condition_state e));
    [discriminate|].
  destruct (negb v); [discriminate|].
  destruct (now - last_trigger_ts (condition_state e)
            <? minimumPublishIntervalMs c) eqn:Egate; [discriminate|].
  apply Z.ltb_ge in Egate.
  destruct (pending_after (condition_state e)) as [deadline|].
  - destruct (now <? deadline); [discriminate|].
    intros H. inversion H; subst. rewrite fire_last_trigger_ts. lia.
  - destruct (afterDuration c >? 0); [discriminate|].
    intros H. inversion H; subst. rewrite fire_last_trigger_ts. lia.
Qed.

(** A tick that does not fire leaves [last_trigger_ts] alone. *)
Lemma tick_skipped (c : Condition) (e e' : Engine) (now : Z) (v : bool) :
  tick_condition c e now v = (e', false) ->
  last_trigger_ts (condition_state e')
  = last_trigger_ts (condition_state e).
Proof.
  unfold tick_condition.
  destruct (triggerOnlyOnRisingEdge c && last_eval (condition_state e)).
  { intros H. inversion H; subst. reflexivity. }
  destruct (negb v).
  { intros H. inversion H; subst. reflexivity. }
  destruct (now - last_trigger_ts (condition_state e)
            <? minimumPublishIntervalMs c).
  { intros H. inversion H; subst. reflexivity. }
  destruct (pending_after (condition_state e)) as [deadline|].
  - destruct (now <? deadline); [|discriminate].
    intros H. inversion H; subst. reflexivity.
  - destruct (afterDuration c >? 0); [|discriminate].
    intros H. inversion H; subst. reflexivity.
Qed.

(** C1, as the engine behaves: over every sequence of ticks, every time at
    which the condition fires is at least [minimumPublishIntervalMs] after
    the time [last_trigger_ts] held before, that is after the previous
    trigger; the two may differ by exactly [minimumPublishIntervalMs]. *)
Theorem triggers_spaced_by_min_interval (c : Condition)
    (ticks : list (Z * bool)) : forall e : Engine,
  spaced (minimumPublishIntervalMs c)
         (last_trigger_ts (condition_state e))
         (snd (run c e ticks)).
Proof.
  induction ticks as [|[now v] rest IH]; intros e; simpl.
  - exact I.
  - destruct (tick_condition c e now v) as [e1 fired] eqn:Etick.
    specialize (IH e1).
    destruct (run c e1 rest) as [e2 later] eqn:Erun. simpl in *.
    destruct fired.
    + apply tick_fired in Etick. destruct Etick as [Hgate Hts].
      simpl. rewrite Hts in IH. split; assumption.
    + apply tick_skipped in Etick. rewrite Etick in IH. exact IH.
Qed.

(** C1, as stated, fails: with a minimum publish interval of 1000 ms, a
    condition that is true at 1000 and at 2000 fires at both times, and 2000
    is not strictly greater than 1000 + 1000. *)
Lemma trigger_gap_can_equal_min_interval :
  let c := mkCondition 1000 0 false in
  let e := mkEngine (mkState false 0 None) (LockedQueue.ctor 1000) 0 0 in
  snd (run c e [(1000, true); (2000, true)]) = [1000; 2000]
  /\ ~ strictly_spaced (minimumPublishIntervalMs c)
         (last_trigger_ts (condition_state e))
         (snd (run c e [(1000, true); (2000, true)])).
Proof.
  split.
  - reflexivity.
  - simpl. intros [H _]. lia.
Qed.

(** The scenarios of section 8 of the specification, on the model. *)

(** Scenario 1: no rising-edge constraint, no minimum interval; the
    condition is false at 1 and true at 2 and at 3. *)
Example scenario_single_rising_edge :
  snd (run (mkCondition 0 0 false)
           (mkEngine (mkState false 0 None) (LockedQueue.ctor 1000) 0 0)
           [(1, false); (2, true); (3, true)])
  = [2; 3].
Proof. reflexivity. Qed.

(** Scenario 2: rising edge only; the condition is true at 2, 3 and 5. *)
Example scenario_rising_edge_only :
  snd (run (mkCondition 0 0 true)
           (mkEngine (mkState false 0 None) (LockedQueue.ctor 1000) 0 0)
           [(1, false); (2, true); (3, true); (4, false); (5, true)])
  = [2; 5].
Proof. reflexivity. Qed.

(** Scenario 3: a condition that is always true, a minimum publish interval
    of 1000 ms, a tick every millisecond for 2500 ms, the last trigger one
    second old at the start: triggers at 0, 1000 and 2000, each exactly
    [minimumPublishIntervalMs] after the one before. *)
Example scenario_min_publish_interval :
  snd (run (mkCondition 1000 0 false)
           (mkEngine (mkState false (-1000) None) (LockedQueue.ctor 1000) 0 0)
           (map (fun n => (Z.of_nat n, true)) (seq 0 2500)))
  = [0; 1000; 2000].
Proof. vm_compute. reflexivity. Qed.

End TriggerEngineFacts.

(** ** ISOTPOverCANReceiver::receivePDU *)

Module ISOTPOverCANReceiverFacts.

Import ISOTPOverCANReceiver.

Lemma resize_length (n : nat) (v : list byte) : length (resize n v) = n.
Proof.
  unfold resize. rewrite length_app, length_firstn, repeat_length. lia.
Qed.

Lemma resize_zero (v : list byte) : resize 0 v = [].
Proof. reflexivity. Qed.

Lemma static_cast_int_small (z : Z) :
  - 2 ^ 31 <= z < 2 ^ 31 -> static_cast_int z = z.
Proof.
  intros H. unfold static_cast_int. rewrite Z.mod_small; lia.
Qed.

(** Shrinking the buffer to the bytes just read gives back those bytes. *)
Lemma resize_after_read (n : nat) (pdu buf : list byte) :
  (n <= length pdu)%nat -> (n <= length buf)%nat ->
  resize n (firstn n pdu ++ skipn n buf) = firstn n pdu.
Proof.
  intros Hp Hb. unfold resize.
  assert (Hlen : length (firstn n pdu) = n)
    by (rewrite length_firstn; lia).
  rewrite firstn_app, Hlen, Nat.sub_diag, firstn_O, app_nil_r.
  rewrite firstn_firstn, Nat.min_id.
  rewrite length_app, Hlen.
  replace (n - (n + length (skipn n buf)))%nat with 0%nat by lia.
  simpl. now rewrite app_nil_r.
Qed.

Lemma firstn_min_length (cap : nat) (pdu : list byte) :
  firstn (Nat.min (length pdu) cap) pdu = firstn cap pdu.
Proof.
  destruct (Nat.le_ge_cases (length pdu) cap) as [H | H].
  - rewrite Nat.min_l by exact H.
    rewrite firstn_all. symmetry. now apply firstn_all2.
  - now rewrite Nat.min_r by exact H.
Qed.

(** What the part after the poll does, in terms of what [read] returns. *)
Lemma read_into_spec (env : socket_env) (pduData : list byte) :
  read_into env pduData
  = (0 <? read_return env,
     if 0 <? read_return env then read_bytes env else []).
Proof.
  unfold read_into, read_return, read_bytes, sys_read.
  pose proof (resize_length (Z.to_nat MAX_PDU_SIZE) pduData) as Hbuf.
  assert (Hcap : Z.of_nat (Z.to_nat MAX_PDU_SIZE) = MAX_PDU_SIZE)
    by reflexivity.
  generalize dependent (resize (Z.to_nat MAX_PDU_SIZE) pduData).
  generalize dependent (Z.to_nat MAX_PDU_SIZE).
  intros cap Hcap buf Hbuf.
  destruct (read_answer env) as [|pdu].
  - reflexivity.
  - rewrite Hbuf, Nat.min_id.
    set (n := Nat.min (length pdu) cap).
    assert (Hn : Z.of_nat n = Z.min (Z.of_nat (length pdu)) MAX_PDU_SIZE)
      by (unfold n; lia).
    assert (Hrange : 0 <= Z.of_nat n <= MAX_PDU_SIZE) by lia.
    rewrite static_cast_int_small by (unfold MAX_PDU_SIZE in *; lia).
    rewrite <- Hn, Z.gtb_ltb.
    destruct (0 <? Z.of_nat n) eqn:Epos.
    + rewrite Nat2Z.id. f_equal.
      rewrite resize_after_read by (unfold n; lia).
      unfold n. apply firstn_min_length.
    + reflexivity.
Qed.

Lemma read_bytes_length (env : socket_env) :
  0 < read_return env ->
  Z.of_nat (length (read_bytes env)) = read_return env.
Proof.
  unfold read_return, read_bytes. destruct (read_answer env) as [|pdu].
  - lia.
  - intros _. rewrite length_firstn.
    assert (Z.of_nat (Z.to_nat MAX_PDU_SIZE) = MAX_PDU_SIZE) by reflexivity.
    lia.
Qed.

Lemma receivePDU_spec (P2_TIMEOUT_INFINITE : Z)
    (opts : ISOTPOverCANReceiverOptions) (env : socket_env)
    (pduData : list byte) :
  receivePDU P2_TIMEOUT_INFINITE opts env pduData
  = if read_performed P2_TIMEOUT_INFINITE opts env
    then read_into env pduData
    else (false, pduData).
Proof.
  unfold receivePDU, read_performed.
  destruct (mP2TimeoutMs opts >? P2_TIMEOUT_INFINITE);
    destruct (poll_res env <=? 0); reflexivity.
Qed.

(** C9: [receivePDU] returns true if and only if it gets as far as [read]
    and [read] returns a positive number of bytes, and then [pduData] holds
    exactly the bytes read, that many; when [read] returns zero or a
    negative value [pduData] ends with length 0; when the timeout is set and
    [poll] returns zero or a negative value the function returns false and
    [pduData] is what the caller passed in. *)
Theorem receivePDU_outcomes (P2_TIMEOUT_INFINITE : Z)
    (opts : ISOTPOverCANReceiverOptions) (env : socket_env)
    (pduData : list byte) :
  let result := receivePDU P2_TIMEOUT_INFINITE opts env pduData in
  (fst result = true <->
   read_performed P2_TIMEOUT_INFINITE opts env = true /\ 0 < read_return env)
  /\ (fst result = true ->
      snd result = read_bytes env
      /\ Z.of_nat (length (snd result)) = read_return env)
  /\ (read_performed P2_TIMEOUT_INFINITE opts env = true ->
      read_return env <= 0 -> result = (false, []))
  /\ (P2_TIMEOUT_INFINITE < mP2TimeoutMs opts -> poll_res env <= 0 ->
      result = (false, pduData)).
Proof.
  intros result. subst result. rewrite receivePDU_spec, read_into_spec.
  split; [|split; [|split]].
  - destruct (read_performed P2_TIMEOUT_INFINITE opts env); simpl.
    + rewrite Z.ltb_lt. tauto.
    + split; [discriminate | intros [H _]; discriminate].
  - destruct (read_performed P2_TIMEOUT_INFINITE opts env); simpl;
      [|discriminate].
    intros Hpos. rewrite Hpos. split; [reflexivity|].
    apply read_bytes_length. now apply Z.ltb_lt.
  - intros -> Hle. apply Z.ltb_ge in Hle. now rewrite Hle.
  - intros Ht Hp. unfold read_performed.
    apply Z.gt_lt_iff, Z.gtb_gt in Ht. apply Z.leb_le in Hp.
    now rewrite Ht, Hp.
Qed.

Lemma receivePDU_outcomes_witness :
  let stale := [x11; x22; x33] in
  let opts := mkOptions 1000 in
  receivePDU 0 opts (mkEnv 0 (ReadPDU [xaa; xbb])) stale = (false, stale)
  /\ receivePDU 0 opts (mkEnv 1 (ReadPDU [])) stale = (false, [])
  /\ receivePDU 0 opts (mkEnv 1 ReadError) stale = (false, [])
  /\ snd (receivePDU 0 opts (mkEnv 1 (ReadPDU [xaa; xbb])) stale) = [xaa; xbb].
Proof.
  intros stale opts.
  split; [|split; [|split]].
  - apply (receivePDU_outcomes 0 opts (mkEnv 0 (ReadPDU [xaa; xbb])) stale);
      [reflexivity | discriminate].
  - apply (receivePDU_outcomes 0 opts (mkEnv 1 (ReadPDU [])) stale);
      [reflexivity | discriminate].
  - apply (receivePDU_outcomes 0 opts (mkEnv 1 ReadError) stale);
      [reflexivity | discriminate].
  - destruct (receivePDU_outcomes 0 opts (mkEnv 1 (ReadPDU [xaa; xbb])) stale)
      as [Hiff [Hdata _]].
    apply Hdata. apply Hiff. split; reflexivity.
Defined.

End ISOTPOverCANReceiverFacts.

(** ** CPUUsageInfo::reportCPUUsageInfo *)

Module CPUUsageInfoFacts.

Import CPUUsageInfo.

Section Facts.

Variable double : Type.
Variable double_of_long : Z -> double.
Variable double_of_ulong : Z -> double.
Variable dadd dmul ddiv : double -> double -> double.
Variable d_1em6 d_100 : double.

Lemma report_getrusage_failed (sscanf_uptime : string -> scanned)
    (self : t double) (os : os_env) :
  getrusage_ret os <> 0 ->
  reportCPUUsageInfo double double_of_long double_of_ulong dadd dmul ddiv
       d_1em6 d_100 sscanf_uptime self os
  = (false, self).
Proof.
  intros H. unfold reportCPUUsageInfo.
  apply Z.eqb_neq in H. now rewrite H.
Qed.

Lemma report_idle_time (sscanf_uptime : string -> scanned)
    (self : t double) (os : os_env) :
  getrusage_ret os = 0 ->
  fst (reportCPUUsageInfo double double_of_long double_of_ulong dadd dmul ddiv
       d_1em6 d_100 sscanf_uptime self os) = true
  /\ mIdleTime (snd (reportCPUUsageInfo double double_of_long double_of_ulong dadd dmul ddiv
       d_1em6 d_100 sscanf_uptime self os))
     = match proc_uptime os with
       | Some stat =>
           let r := sscanf_uptime stat in
           if conversions r =? 4
           then dadd (double_of_ulong (uptimeSeconds r))
                     (ddiv (double_of_ulong (idleTimeFraction r)) d_100)
           else mIdleTime self
       | None => mIdleTime self
       end.
Proof.
  intros H. unfold reportCPUUsageInfo. rewrite H. simpl.
  split; reflexivity.
Qed.

End Facts.

(** C10: whenever [getrusage] succeeds, [reportCPUUsageInfo] returns true,
    also when [/proc/uptime] cannot be opened or [sscanf] does not convert
    four fields, and then the idle time keeps its value. When the line
    parses as "A.B C.D" the stored idle time is
    [double(A) + double(D) / 100.0]: it depends on the uptime seconds [A]
    and on the idle fraction [D] only, whatever [B] and the idle seconds [C]
    are. This holds for every double arithmetic and every behaviour of
    [sscanf]. *)
Theorem reportCPUUsageInfo_idle_time
    (double : Type) (double_of_long double_of_ulong : Z -> double)
    (dadd dmul ddiv : double -> double -> double) (d_1em6 d_100 : double)
    (sscanf_uptime : string -> scanned) (self : t double) (os : os_env) :
  getrusage_ret os = 0 ->
  let report := reportCPUUsageInfo double double_of_long double_of_ulong
                                   dadd dmul ddiv d_1em6 d_100 in
  let result := report sscanf_uptime self os in
  fst result = true
  /\ (proc_uptime os = None -> mIdleTime (snd result) = mIdleTime self)
  /\ (forall stat : string,
        proc_uptime os = Some stat ->
        conversions (sscanf_uptime stat) <> 4 ->
        mIdleTime (snd result) = mIdleTime self)
  /\ (forall stat : string,
        proc_uptime os = Some stat ->
        conversions (sscanf_uptime stat) = 4 ->
        mIdleTime (snd result)
        = dadd (double_of_ulong (uptimeSeconds (sscanf_uptime stat)))
               (ddiv (double_of_ulong (idleTimeFraction (sscanf_uptime stat)))
                     d_100))
  /\ (forall (other_sscanf : string -> scanned) (stat : string),
        proc_uptime os = Some stat ->
        conversions (sscanf_uptime stat) = 4 ->
        conversions (other_sscanf stat) = 4 ->
        uptimeSeconds (other_sscanf stat) = uptimeSeconds (sscanf_uptime stat) ->
        idleTimeFraction (other_sscanf stat)
        = idleTimeFraction (sscanf_uptime stat) ->
        mIdleTime (snd (report other_sscanf self os))
        = mIdleTime (snd result)).
Proof.
  intros Hok report result. subst report result.
  destruct (report_idle_time double double_of_long double_of_ulong
              dadd dmul ddiv d_1em6 d_100 sscanf_uptime self os Hok)
    as [Htrue Hidle].
  split; [exact Htrue|]. rewrite Hidle.
  split; [|split; [|split]].
  - intros ->. reflexivity.
  - intros stat -> Hn. apply Z.eqb_neq in Hn. cbv zeta. now rewrite Hn.
  - intros stat -> H4. cbv zeta. now rewrite H4.
  - intros other stat Hstat H4 H4' HA HD.
    destruct (report_idle_time double double_of_long double_of_ulong
                dadd dmul ddiv d_1em6 d_100 other self os Hok)
      as [_ Hidle'].
    rewrite Hidle', Hstat. cbv zeta. now rewrite H4, H4', HA, HD.
Qed.

Lemma reportCPUUsageInfo_idle_time_witness :
  let report := reportCPUUsageInfo expr OfLong OfULong Add Mul Div
                                   Lit1em6 Lit100 scan_uptime in
  let self := mk (OfLong 0) (OfLong 0) (OfLong 7) in
  let usage := mkRusage 1 500000 0 250000 in
  scan_uptime "35001.42 139900.89" = mkScanned 4 35001 42 139900 89
  /\ mIdleTime (snd (report self (mkOs 0 usage (Some "35001.42 139900.89"%string))))
     = Add (OfULong 35001) (Div (OfULong 89) Lit100)
  /\ fst (report self (mkOs 0 usage None)) = true
  /\ mIdleTime (snd (report self (mkOs 0 usage None))) = OfLong 7
  /\ fst (report self (mkOs 0 usage (Some "up 35001"%string))) = true
  /\ mIdleTime (snd (report self (mkOs 0 usage (Some "up 35001"%string))))
     = OfLong 7.
Proof.
  intros report self usage.
  pose proof (fun os H => reportCPUUsageInfo_idle_time expr OfLong OfULong
                Add Mul Div Lit1em6 Lit100 scan_uptime self os H) as Thm.
  split; [reflexivity|].
  split.
  { destruct (Thm (mkOs 0 usage (Some "35001.42 139900.89"%string)) eq_refl)
      as [_ [_ [_ [H _]]]].
    apply (H "35001.42 139900.89"%string); reflexivity. }
  destruct (Thm (mkOs 0 usage None) eq_refl) as [Ht [Hn _]].
  split; [exact Ht|]. split; [apply Hn; reflexivity|].
  destruct (Thm (mkOs 0 usage (Some "up 35001"%string)) eq_refl)
    as [Ht' [_ [Hbad _]]].
  split; [exact Ht'|].
  apply (Hbad "up 35001"%string); [reflexivity | discriminate].
Defined.

End CPUUsageInfoFacts.

(** ** LockedQueue: how the operations compose *)

Module LockedQueueUse.

Import LockedQueue LockedQueueFacts.

Section Use.

Context {T : Type}.
Variable T_default : T.

Lemma run_mMaxSize (ops : list (op T)) : forall o : observed T,
  mMaxSize (queue (run T_default o ops)) = mMaxSize (queue o).
Proof.
  induction ops as [|a ops IH]; intros o; simpl.
  - reflexivity.
  - rewrite IH. apply step_mMaxSize.
Qed.

Lemma step_consumeAll (o : observed T) :
  step T_default o OpConsumeAll
  = mkObserved (mk (mMaxSize (queue o)) []) (accepted o)
               (delivered o ++ mQueue (queue o)) (push_results o).
Proof.
  simpl. rewrite consumeAll_spec, fold_record_element. reflexivity.
Qed.

Lemma pops_drain (l : list T) : forall o : observed T,
  mQueue (queue o) = l ->
  run T_default o (repeat OpPop (length l))
  = mkObserved (mk (mMaxSize (queue o)) []) (accepted o)
               (delivered o ++ l) (push_results o).
Proof.
  induction l as [|x l IH]; intros [[m q] acc del res] Hq;
    simpl in Hq; subst q; simpl.
  - now rewrite app_nil_r.
  - rewrite IH by reflexivity. simpl. now rewrite <- app_assoc.
Qed.

Lemma step_push_queue (o : observed T) (v : T) :
  queue (step T_default o (OpPush v)) = snd (push (queue o) v).
Proof. simpl. destruct (push (queue o) v); reflexivity. Qed.

Lemma pushes_fill (vs : list T) : forall o : observed T,
  within_capacity (queue o) ->
  mMaxSize (queue o) < SIZE_MAX ->
  mQueue (queue (run T_default o (map OpPush vs)))
  = mQueue (queue o)
    ++ firstn (Z.to_nat (mMaxSize (queue o) - size (queue o))) vs.
Proof.
  induction vs as [|v vs IH]; intros o Hcap Hmax.
  - simpl. now rewrite firstn_nil, app_nil_r.
  - assert (Hrep : size_representable (queue o))
      by (unfold size_representable, within_capacity in *; lia).
    pose proof (push_no_wrap (queue o) Hrep) as Hadd.
    pose proof (push_within_capacity (queue o) v Hcap Hrep) as Hcap'.
    change (run T_default o (map OpPush (v :: vs)))
      with (run T_default (step T_default o (OpPush v)) (map OpPush vs)).
    rewrite IH; rewrite step_push_queue;
      [| exact Hcap' | now rewrite push_mMaxSize].
    unfold within_capacity in Hcap.
    destruct (u64_add (size (queue o)) 1 >? mMaxSize (queue o)) eqn:E.
    + rewrite (push_full _ v E). simpl.
      rewrite Hadd in E. apply Z.gtb_lt in E.
      replace (mMaxSize (queue o) - size (queue o)) with 0 by lia.
      reflexivity.
    + rewrite (push_room _ v E). simpl.
      rewrite Hadd, Z.gtb_ltb in E. apply Z.ltb_ge in E.
      unfold size at 1. simpl. rewrite size_app.
      replace (Z.to_nat (mMaxSize (queue o) - size (queue o)))
        with (S (Z.to_nat (mMaxSize (queue o) - (size (queue o) + 1))))
        by lia.
      simpl. now rewrite <- app_assoc.
Qed.

End Use.

(** X1: whatever the clients do, the queue never owes more than its
    capacity: the number of elements accepted so far exceeds the number
    handed out by at most [maxSize]. *)
Theorem accepted_within_capacity_of_delivered {T : Type} (T_default : T)
    (maxSize : Z) (ops : list (op T)) :
  0 <= maxSize < SIZE_MAX ->
  let o := run T_default (start maxSize) ops in
  Z.of_nat (length (delivered o)) <= Z.of_nat (length (accepted o))
  /\ Z.of_nat (length (accepted o))
     <= Z.of_nat (length (delivered o)) + maxSize.
Proof.
  intros [Hlo Hhi] o.
  assert (Hfifo : fifo_inv o)
    by (apply (run_fifo_inv T_default ops (start maxSize)); reflexivity).
  assert (Hcap : within_capacity (queue o)).
  { apply run_within_capacity; [exact Hhi|].
    now apply ctor_within_capacity. }
  assert (Hmax : mMaxSize (queue o) = maxSize)
    by (unfold o; now rewrite run_mMaxSize).
  unfold fifo_inv in Hfifo. unfold within_capacity, size in Hcap.
  rewrite <- Hfifo, length_app. lia.
Qed.

Lemma accepted_within_capacity_of_delivered_witness :
  let o := run 0%nat (start 2)
               [OpPush 1%nat; OpPush 2%nat; OpPush 3%nat; OpPop;
                OpPush 4%nat; OpPush 5%nat] in
  Z.of_nat (length (delivered o)) <= Z.of_nat (length (accepted o))
  /\ Z.of_nat (length (accepted o)) <= Z.of_nat (length (delivered o)) + 2.
Proof.
  apply (accepted_within_capacity_of_delivered 0%nat 2).
  unfold SIZE_MAX. lia.
Defined.

(** X2: a successful [pop] makes room: on a queue within its capacity, the
    [push] that follows a [pop] that returned true succeeds and puts its
    element behind the ones that remain. *)
Theorem push_after_pop_succeeds {T : Type} (q : LockedQueue.t T)
    (element v : T) :
  within_capacity q ->
  mMaxSize q <= SIZE_MAX ->
  fst (fst (pop q element)) = true ->
  push (snd (pop q element)) v
  = (true, mk (mMaxSize q) (mQueue (snd (pop q element)) ++ [v])).
Proof.
  unfold within_capacity, size. intros Hcap Hmax.
  destruct q as [m [|x l]]; simpl in *; [discriminate|]. intros _.
  apply push_room. unfold size. simpl.
  rewrite u64_add_small by (unfold UINT64_MAX, SIZE_MAX in *; lia).
  rewrite Z.gtb_ltb. apply Z.ltb_ge. lia.
Qed.

Lemma push_after_pop_succeeds_witness :
  let q := mk 2 [7%nat; 8%nat] in
  fst (push q 9%nat) = false
  /\ push (snd (pop q 0%nat)) 9%nat = (true, mk 2 [8%nat; 9%nat]).
Proof.
  intros q. split; [reflexivity|].
  apply (push_after_pop_succeeds q 0%nat 9%nat).
  - unfold within_capacity, size, q. simpl. lia.
  - discriminate.
  - reflexivity.
Defined.

(** X3: the overflow policy is drop-newest: after pushing a sequence of
    elements on a queue just constructed, without taking any out, the queue
    holds the first [maxSize] of them, in order. *)
Theorem pushes_keep_the_oldest {T : Type} (T_default : T) (maxSize : Z)
    (vs : list T) :
  0 <= maxSize < SIZE_MAX ->
  mQueue (queue (run T_default (start maxSize) (map OpPush vs)))
  = firstn (Z.to_nat maxSize) vs.
Proof.
  intros [Hlo Hhi].
  rewrite pushes_fill.
  - simpl. unfold size. simpl. now rewrite Z.sub_0_r.
  - now apply ctor_within_capacity.
  - exact Hhi.
Qed.

Lemma pushes_keep_the_oldest_witness :
  mQueue (queue (run 0%nat (start 2)
                     (map OpPush [5%nat; 6%nat; 7%nat; 8%nat])))
  = firstn (Z.to_nat 2) [5%nat; 6%nat; 7%nat; 8%nat].
Proof.
  apply (pushes_keep_the_oldest 0%nat 2). unfold SIZE_MAX. lia.
Defined.

(** X4: [consumeAll] is [pop] repeated: with a functor that records what it
    is given, one [consumeAll] leaves the queue and the record exactly as
    one [pop] per stored element does, and the [pop] after that returns
    false. *)
Theorem consumeAll_equals_repeated_pop {T : Type} (T_default : T)
    (o : observed T) :
  run T_default o [OpConsumeAll]
  = run T_default o (repeat OpPop (length (mQueue (queue o))))
  /\ forall element : T,
       pop (queue (run T_default o [OpConsumeAll])) element
       = (false, element, queue (run T_default o [OpConsumeAll])).
Proof.
  change (run T_default o [OpConsumeAll])
    with (step T_default o OpConsumeAll).
  rewrite step_consumeAll. split.
  - now rewrite (pops_drain T_default (mQueue (queue o)) o eq_refl).
  - intros element. reflexivity.
Qed.

(** X5: [isEmpty] tells whether [pop] would fail. It holds of a queue just
    constructed and after [consumeAll], and not after a [push] that returned
    true. *)
Theorem isEmpty_agrees_with_pop {T : Type} (T_default : T)
    (q : LockedQueue.t T) :
  (forall element : T, isEmpty q = negb (fst (fst (pop q element))))
  /\ (forall maxSize : Z, isEmpty (ctor maxSize : LockedQueue.t T) = true)
  /\ (forall (S : Type) (functor : T -> S -> S) (s : S),
        isEmpty (snd (fst (consumeAll T_default functor q s))) = true)
  /\ (forall v : T,
        fst (push q v) = true -> isEmpty (snd (push q v)) = false).
Proof.
  split; [|split; [|split]].
  - intros element. unfold isEmpty, pop. destruct (mQueue q); reflexivity.
  - reflexivity.
  - intros S functor s. rewrite consumeAll_spec. reflexivity.
  - intros v. destruct (push_cases q v) as [-> | ->]; simpl.
    + discriminate.
    + intros _. unfold isEmpty. simpl. destruct (mQueue q); reflexivity.
Qed.

Lemma isEmpty_agrees_with_pop_witness :
  isEmpty (snd (push (ctor 1) 4%nat)) = false.
Proof.
  destruct (isEmpty_agrees_with_pop 0%nat (ctor 1)) as [_ [_ [_ H]]].
  apply H. reflexivity.
Defined.

End LockedQueueUse.

(** ** Collected signals *)

Module CollectedSignalFacts.

Import SignalValueWrapper CollectedSignal.

(** X6: both constructors of [CollectedSignal] build a value whose type tag
    names the union member that was written, for every signal type and
    every type of the incoming value; the typed constructor keeps the
    requested type, the other one always yields [DOUBLE]; identifier and
    time are stored as given. Assigning a [double] to a wrapper keeps the
    tag in step as well. *)
Theorem constructed_signals_are_well_tagged
    (float double T : Type) (casts : StaticCast float double T)
    (signalIDIn receiveTimeIn : Z) (sigValue : T) (sigType : SignalType) :
  let typed := ctor_typed float double signalIDIn receiveTimeIn sigValue sigType in
  let plain := ctor_double float double signalIDIn receiveTimeIn sigValue in
  well_tagged (value typed)
  /\ getType typed = sigType
  /\ signalID typed = signalIDIn /\ receiveTime typed = receiveTimeIn
  /\ well_tagged (value plain)
  /\ getType plain = DOUBLE
  /\ signalID plain = signalIDIn /\ receiveTime plain = receiveTimeIn
  /\ (forall (w : SignalValueWrapper.t float double) (d : double),
        well_tagged (assign_double w d)
        /\ SignalValueWrapper.getType (assign_double w d) = DOUBLE).
Proof.
  intros typed plain. subst typed plain.
  unfold well_tagged, getType, SignalValueWrapper.getType.
  destruct sigType; simpl; repeat split.
Qed.



End CollectedSignalFacts.

(** ** ISOTPOverCANReceiver: the socket *)

Module ISOTPOverCANReceiverSocketFacts.

Import ISOTPOverCANReceiver ISOTPOverCANReceiverFacts.
Import ISOTPOverCANReceiverSocket.

Lemma read_bytes_bounded (env : socket_env) :
  Z.of_nat (length (read_bytes env)) <= MAX_PDU_SIZE.
Proof.
  unfold read_bytes. destruct (read_answer env) as [|pdu].
  - simpl. unfold MAX_PDU_SIZE. lia.
  - rewrite length_firstn.
    assert (Z.of_nat (Z.to_nat MAX_PDU_SIZE) = MAX_PDU_SIZE) by reflexivity.
    lia.
Qed.

(** X8: once [receivePDU] gets as far as [read], nothing of what the caller
    had in [pduData] survives: the result is the same for every previous
    content. In every case where [read] is reached the vector ends up with
    at most [MAX_PDU_SIZE] bytes; a longer PDU is cut there. *)
Theorem receivePDU_forgets_previous_content (P2_TIMEOUT_INFINITE : Z)
    (opts : ISOTPOverCANReceiverOptions) (env : socket_env) :
  read_performed P2_TIMEOUT_INFINITE opts env = true ->
  (forall before other : list byte,
      receivePDU P2_TIMEOUT_INFINITE opts env before
      = receivePDU P2_TIMEOUT_INFINITE opts env other)
  /\ (forall before : list byte,
        Z.of_nat (length (snd (receivePDU P2_TIMEOUT_INFINITE opts env before)))
        <= MAX_PDU_SIZE).
Proof.
  intros Hread. split.
  - intros before other.
    now rewrite !receivePDU_spec, Hread, !read_into_spec.
  - intros before. rewrite receivePDU_spec, Hread, read_into_spec.
    destruct (0 <? read_return env); simpl.
    + apply read_bytes_bounded.
    + unfold MAX_PDU_SIZE. lia.
Qed.

Lemma receivePDU_forgets_previous_content_witness :
  let env := mkEnv 1 (ReadPDU [xaa; xbb]) in
  receivePDU 0 (mkOptions 1000) env [x11; x22; x33]
  = receivePDU 0 (mkOptions 1000) env [].
Proof.
  intros env.
  apply (receivePDU_forgets_previous_content 0 (mkOptions 1000) env).
  reflexivity.
Defined.

Section ConnectFacts.

Variable EXTEND_ADDR RX_EXT_ADDR : Z.
Variable opts : ConnectOptions.
Variable k : kernel.

Lemma connect_cases :
  let '(ok, fd, calls) := connect EXTEND_ADDR RX_EXT_ADDR opts k in
  fd = socket_ret k
  /\ (ok = true <->
      0 <= socket_ret k /\ 0 <= setsockopt_opts_ret k
      /\ 0 <= setsockopt_recv_fc_ret k /\ 0 <= bind_ret k)
  /\ (existsb is_close calls = true <->
      0 <= socket_ret k /\ 0 <= setsockopt_opts_ret k
      /\ 0 <= setsockopt_recv_fc_ret k /\ bind_ret k < 0)
  /\ (forall fd', In (SysClose fd') calls -> fd' = socket_ret k)
  /\ (forall fd' bs stmin wftmax,
        In (SysSetRecvFc fd' bs stmin wftmax) calls ->
        bs = mBlockSize opts mod 256
        /\ stmin = mFrameSeparationTimeMs opts mod 256
        /\ wftmax = 0)
  /\ (0 <= socket_ret k ->
      exists flags bs stmin,
        firstn 3 calls
        = [SysSocket; SysSetOpts (socket_ret k) flags;
           SysSetRecvFc (socket_ret k) bs stmin 0]).
Proof.
  unfold connect.
  assert (Hmask : forall x, Z.land x 0xFF = x mod 256).
  { intros x. change 0xFF with (Z.ones 8). rewrite Z.land_ones by lia.
    reflexivity. }
  rewrite !Hmask.
  destruct (socket_ret k <? 0) eqn:Es;
    [apply Z.ltb_lt in Es | apply Z.ltb_ge in Es];
  [| destruct (setsockopt_opts_ret k <? 0) eqn:Eo;
     [apply Z.ltb_lt in Eo | apply Z.ltb_ge in Eo];
     (destruct (setsockopt_recv_fc_ret k <? 0) eqn:Ef;
      [apply Z.ltb_lt in Ef | apply Z.ltb_ge in Ef]);
     cbn [orb];
     try (destruct (bind_ret k <? 0) eqn:Eb;
          [apply Z.ltb_lt in Eb | apply Z.ltb_ge in Eb]) ];
  cbn [existsb is_close app orb firstn In].
  all: repeat match goal with |- _ /\ _ => split end.
  all: try reflexivity.
  all: try (split; intros; try discriminate; lia).
  all: try (intros Hs; first [lia | do 3 eexists; reflexivity]).
  all: intros; repeat match goal with
         | H : _ \/ _ |- _ => destruct H
         | H : False |- _ => destruct H
         end; try discriminate.
  all: match goal with
       | H : SysClose _ = SysClose _ |- _ => now inversion H
       | H : SysSetRecvFc _ _ _ _ = SysSetRecvFc _ _ _ _ |- _ =>
           inversion H; subst; repeat split
       end.
Qed.

End ConnectFacts.

(** X9: [connect] returns true exactly when [socket], both [setsockopt]
    calls and [bind] all succeed; [mSocket] holds what [socket] returned in
    every case. *)
Theorem connect_succeeds_iff_all_calls_succeed
    (EXTEND_ADDR RX_EXT_ADDR : Z) (opts : ConnectOptions) (k : kernel) :
  (fst (fst (connect EXTEND_ADDR RX_EXT_ADDR opts k)) = true <->
   0 <= socket_ret k /\ 0 <= setsockopt_opts_ret k
   /\ 0 <= setsockopt_recv_fc_ret k /\ 0 <= bind_ret k)
  /\ snd (fst (connect EXTEND_ADDR RX_EXT_ADDR opts k)) = socket_ret k.
Proof.
  pose proof (connect_cases EXTEND_ADDR RX_EXT_ADDR opts k) as H.
  destruct (connect EXTEND_ADDR RX_EXT_ADDR opts k) as [[ok fd] calls].
  simpl. destruct H as [Hfd [Hok _]]. split; assumption.
Qed.

(** X10: [connect] closes the socket it opened only when [bind] fails, and
    then it closes that very descriptor. When a [setsockopt] fails the
    function returns false with the descriptor still open: no [close] is
    among its calls. Both [setsockopt] calls are made whenever the socket
    was opened, whether or not the first one succeeds. *)
Theorem connect_closes_only_after_failed_bind
    (EXTEND_ADDR RX_EXT_ADDR : Z) (opts : ConnectOptions) (k : kernel) :
  let calls := snd (connect EXTEND_ADDR RX_EXT_ADDR opts k) in
  (existsb is_close calls = true <->
   0 <= socket_ret k /\ 0 <= setsockopt_opts_ret k
   /\ 0 <= setsockopt_recv_fc_ret k /\ bind_ret k < 0)
  /\ (forall fd : Z, In (SysClose fd) calls -> fd = socket_ret k)
  /\ (0 <= socket_ret k ->
      setsockopt_opts_ret k < 0 \/ setsockopt_recv_fc_ret k < 0 ->
      fst (fst (connect EXTEND_ADDR RX_EXT_ADDR opts k)) = false
      /\ existsb is_close calls = false)
  /\ (0 <= socket_ret k ->
      exists flags bs stmin,
        firstn 3 calls
        = [SysSocket; SysSetOpts (socket_ret k) flags;
           SysSetRecvFc (socket_ret k) bs stmin 0]).
Proof.
  pose proof (connect_cases EXTEND_ADDR RX_EXT_ADDR opts k) as H.
  destruct (connect EXTEND_ADDR RX_EXT_ADDR opts k) as [[ok fd] calls].
  simpl. destruct H as [_ [Hok [Hclose [Hfd [_ Hfirst]]]]].
  split; [exact Hclose|]. split; [exact Hfd|]. split; [|exact Hfirst].
  intros Hs Hfail. split.
  - destruct ok; [|reflexivity]. destruct Hok as [Hok _].
    specialize (Hok eq_refl). lia.
  - destruct (existsb is_close calls); [|reflexivity].
    destruct Hclose as [Hclose _]. specialize (Hclose eq_refl). lia.
Qed.

Lemma connect_closes_only_after_failed_bind_witness :
  let opts := mkConnectOptions 0x7E0 0x7E8 false 0 0 "vcan0" in
  let k := mkKernel 5 0 (-1) 3 0 0 in
  fst (fst (connect 2 512 opts k)) = false
  /\ existsb is_close (snd (connect 2 512 opts k)) = false.
Proof.
  intros opts k.
  destruct (connect_closes_only_after_failed_bind 2 512 opts k)
    as [_ [_ [H _]]].
  apply H.
  - discriminate.
  - right. reflexivity.
Defined.

(** X11: the flow-control options [connect] hands to the kernel are bytes:
    the block size and the separation time are the low eight bits of the
    configured values, and the number of wait frames is zero. *)
Theorem connect_flow_control_options_are_bytes
    (EXTEND_ADDR RX_EXT_ADDR : Z) (opts : ConnectOptions) (k : kernel)
    (fd bs stmin wftmax : Z) :
  In (SysSetRecvFc fd bs stmin wftmax)
     (snd (connect EXTEND_ADDR RX_EXT_ADDR opts k)) ->
  bs = mBlockSize opts mod 256
  /\ stmin = mFrameSeparationTimeMs opts mod 256
  /\ wftmax = 0
  /\ 0 <= bs <= 255 /\ 0 <= stmin <= 255.
Proof.
  pose proof (connect_cases EXTEND_ADDR RX_EXT_ADDR opts k) as H.
  destruct (connect EXTEND_ADDR RX_EXT_ADDR opts k) as [[ok fd0] calls].
  simpl. destruct H as [_ [_ [_ [_ [Hfc _]]]]]. intros Hin.
  destruct (Hfc fd bs stmin wftmax Hin) as [Hbs [Hst Hw]].
  pose proof (Z.mod_pos_bound (mBlockSize opts) 256).
  pose proof (Z.mod_pos_bound (mFrameSeparationTimeMs opts) 256).
  repeat split; try assumption; lia.
Qed.

Lemma connect_flow_control_options_are_bytes_witness :
  let opts := mkConnectOptions 0x7E0 0x7E8 true 0x1FF 300 "vcan0" in
  let k := mkKernel 5 0 0 3 0 0 in
  In (SysSetRecvFc 5 255 44 0) (snd (connect 2 512 opts k))
  /\ 255 = mBlockSize opts mod 256.
Proof.
  intros opts k.
  assert (Hin : In (SysSetRecvFc 5 255 44 0) (snd (connect 2 512 opts k)))
    by (simpl; tauto).
  split; [exact Hin|].
  apply (connect_flow_control_options_are_bytes 2 512 opts k 5 255 44 0 Hin).
Defined.

End ISOTPOverCANReceiverSocketFacts.

(** ** CPUUsageInfo::reportPerThreadUsageData *)

Module ThreadCPUUsageFacts.

Import ThreadCPUUsage.

(** *** The scan of a [stat] line *)

Lemma eqb_false (c d : ascii) : c <> d -> Ascii.eqb c d = false.
Proof. apply Ascii.eqb_neq. Qed.

Lemma u32_incr_small (z : Z) : 0 <= z < 2 ^ 32 - 1 -> u32_incr z = z + 1.
Proof. intros H. unfold u32_incr. apply Z.mod_small. lia. Qed.

Lemma scan_stat_cons (st : scan_state) (c : ascii) (tail : list ascii) :
  c <> zero -> scan_stat st (c :: tail) = scan_stat (scan_char st c) tail.
Proof. intros H. simpl. now rewrite (eqb_false c zero H). Qed.

(** A character of a word in a field the loop does not collect. *)
Lemma scan_char_ignored (st : scan_state) (c : ascii) :
  currentField st <> 2 -> currentField st <> 14 -> currentField st <> 15 ->
  c <> " "%char -> scan_char st c = st.
Proof.
  intros H2 H14 H15 Hc. unfold scan_char.
  apply Z.eqb_neq in H2, H14, H15.
  now rewrite H2, H14, H15, (eqb_false c " " Hc).
Qed.

Lemma scan_word_ignored (w tail : list ascii) (st : scan_state) :
  is_word w ->
  currentField st <> 2 -> currentField st <> 14 -> currentField st <> 15 ->
  scan_stat st (w ++ tail) = scan_stat st tail.
Proof.
  intros Hw H2 H14 H15. induction Hw as [|c w [Hsp Hz] Hw IH]; simpl app.
  - reflexivity.
  - rewrite scan_stat_cons by exact Hz.
    now rewrite scan_char_ignored.
Qed.

Lemma scan_blank (st : scan_state) (tail : list ascii) :
  currentField st <> 2 ->
  scan_stat st (" "%char :: tail)
  = scan_stat (mkScan (u32_incr (currentField st)) (commStringFinished st)
                      (comm st) (utimeString st) (stimeString st)) tail.
Proof.
  intros H2. rewrite scan_stat_cons by discriminate.
  unfold scan_char. apply Z.eqb_neq in H2. now rewrite H2.
Qed.

Lemma scan_word_utime (w tail : list ascii) : forall fin name ut stime,
  is_word w ->
  scan_stat (mkScan 14 fin name ut stime) (w ++ tail)
  = scan_stat (mkScan 14 fin name (ut ++ w) stime) tail.
Proof.
  induction w as [|c w IH]; intros fin name ut stime Hw; simpl app.
  - now rewrite app_nil_r.
  - inversion Hw as [|? ? [Hsp Hz] Hw']; subst.
    rewrite scan_stat_cons by exact Hz.
    unfold scan_char. simpl. rewrite (eqb_false c " " Hsp).
    rewrite IH by exact Hw'. now rewrite <- app_assoc.
Qed.

Lemma scan_word_stime (w tail : list ascii) : forall fin name ut stime,
  is_word w ->
  scan_stat (mkScan 15 fin name ut stime) (w ++ tail)
  = scan_stat (mkScan 15 fin name ut (stime ++ w)) tail.
Proof.
  induction w as [|c w IH]; intros fin name ut stime Hw; simpl app.
  - now rewrite app_nil_r.
  - inversion Hw as [|? ? [Hsp Hz] Hw']; subst.
    rewrite scan_stat_cons by exact Hz.
    unfold scan_char. simpl. rewrite (eqb_false c " " Hsp).
    rewrite IH by exact Hw'. now rewrite <- app_assoc.
Qed.

(** The name between the parentheses, up to the blank behind [')']. *)
Lemma scan_name (name tail : list ascii) : forall collected ut stime,
  is_plain_comm name ->
  scan_stat (mkScan 2 false collected ut stime)
            (name ++ ")"%char :: " "%char :: tail)
  = scan_stat (mkScan 3 true (collected ++ name) ut stime) tail.
Proof.
  induction name as [|c name IH]; intros collected ut stime Hn; simpl app.
  - rewrite scan_stat_cons by discriminate.
    rewrite scan_stat_cons by discriminate.
    now rewrite app_nil_r.
  - inversion Hn as [|? ? [Hopen [Hclose Hz]] Hn']; subst.
    rewrite scan_stat_cons by exact Hz.
    unfold scan_char. simpl.
    rewrite (eqb_false c ")" Hclose), (eqb_false c "(" Hopen). simpl.
    rewrite IH by exact Hn'. now rewrite <- app_assoc.
Qed.

(** Whole fields that the loop passes over, each with the blank behind it. *)
Lemma scan_fields_ignored (ws : list (list ascii)) (tail : list ascii) :
  forall field fin name ut stime,
    Forall is_word ws ->
    3 <= field -> field + Z.of_nat (length ws) <= 14 ->
    scan_stat (mkScan field fin name ut stime)
              (concat (map (fun w => w ++ [" "%char]) ws) ++ tail)
    = scan_stat (mkScan (field + Z.of_nat (length ws)) fin name ut stime)
                tail.
Proof.
  induction ws as [|w ws IH]; intros field fin name ut stime Hws Hlo Hhi.
  - simpl. now rewrite Z.add_0_r.
  - inversion Hws as [|? ? Hw Hws']; subst.
    simpl length in Hhi. simpl map. simpl concat.
    rewrite <- !app_assoc. simpl app.
    rewrite scan_word_ignored by (simpl; try exact Hw; lia).
    rewrite scan_blank by (simpl; lia). simpl.
    rewrite u32_incr_small by lia.
    rewrite IH by (try exact Hws'; lia).
    f_equal. f_equal. simpl length. lia.
Qed.

(** The fields behind [stime], each with the blank in front of it. *)
Lemma scan_fields_behind (more : list (list ascii)) :
  forall field fin name ut stime,
    Forall is_word more ->
    15 <= field -> field + Z.of_nat (length more) < 2 ^ 32 ->
    exists field',
      scan_stat (mkScan field fin name ut stime)
                (concat (map (fun w => " "%char :: w) more))
      = mkScan field' fin name ut stime.
Proof.
  induction more as [|w more IH]; intros field fin name ut stime Hm Hlo Hhi.
  - simpl. eauto.
  - inversion Hm as [|? ? Hw Hm']; subst.
    simpl length in Hhi. simpl map. simpl concat. simpl app.
    rewrite scan_blank by (simpl; lia). simpl.
    rewrite u32_incr_small by lia.
    rewrite scan_word_ignored by (simpl; try exact Hw; lia).
    apply IH; try exact Hm'; lia.
Qed.

(** X12: the scan reads back what the kernel printed. For a [stat] line
    made of a pid, a name in parentheses (blanks allowed, no parenthesis in
    it), the eleven fields 3 to 13, [utime], [stime] and any further fields,
    the loop collects exactly the name, the text of field 14 and the text of
    field 15. *)
Theorem scan_reads_back_stat_line
    (pid name : list ascii) (fields_3_to_13 : list (list ascii))
    (utime stime : list ascii) (more : list (list ascii)) :
  is_word pid ->
  is_plain_comm name ->
  Forall is_word fields_3_to_13 ->
  length fields_3_to_13 = 11%nat ->
  is_word utime ->
  is_word stime ->
  Forall is_word more ->
  Z.of_nat (length more) < 2 ^ 32 - 16 ->
  let st := scan_stat scan_init
              (stat_line pid name fields_3_to_13 utime stime more) in
  comm st = name /\ utimeString st = utime /\ stimeString st = stime.
Proof.
  intros Hpid Hname Hfields Hlen Hut Hst Hmore Hbound.
  unfold stat_line, scan_init.
  rewrite scan_word_ignored by (simpl; try exact Hpid; lia).
  rewrite scan_blank by (simpl; lia). cbn [currentField commStringFinished comm utimeString stimeString].
  change (u32_incr 1) with 2.
  rewrite scan_stat_cons by discriminate.
  change (scan_char (mkScan 2 false [] [] []) "(") with (mkScan 2 false [] [] []).
  rewrite scan_name by exact Hname. simpl app.
  rewrite scan_fields_ignored by (try exact Hfields; lia).
  rewrite Hlen. change (3 + Z.of_nat 11) with 14.
  rewrite scan_word_utime by exact Hut. simpl app.
  rewrite scan_blank by (simpl; lia). cbn [currentField commStringFinished comm utimeString stimeString].
  change (u32_incr 14) with 15.
  rewrite (scan_word_stime stime
             (concat (map (fun w => " "%char :: w) more))) by exact Hst.
  simpl app.
  destruct (scan_fields_behind more 15 true name utime stime Hmore)
    as [field' ->]; [lia | lia |].
  simpl. repeat split.
Qed.

Lemma scan_reads_back_stat_line_witness :
  let line := stat_line (chars "4711") (chars "can rx (0)")
                [chars "S"; chars "1"; chars "4711"; chars "4711"; chars "0";
                 chars "-1"; chars "4194368"; chars "12"; chars "0";
                 chars "3"; chars "0"]
                (chars "250") (chars "17") [chars "0"; chars "0"] in
  comm (scan_stat scan_init line) = chars "can rx 0"
  /\ utimeString (scan_stat scan_init line) = chars "250"
  /\ comm (scan_stat scan_init
             (stat_line (chars "4711") (chars "can rx")
                [chars "S"; chars "1"; chars "4711"; chars "4711"; chars "0";
                 chars "-1"; chars "4194368"; chars "12"; chars "0";
                 chars "3"; chars "0"]
                (chars "250") (chars "17") [chars "0"; chars "0"]))
     = chars "can rx".
Proof.
  intros line. split; [reflexivity|]. split; [reflexivity|].
  apply (scan_reads_back_stat_line (chars "4711") (chars "can rx")
           [chars "S"; chars "1"; chars "4711"; chars "4711"; chars "0";
            chars "-1"; chars "4194368"; chars "12"; chars "0";
            chars "3"; chars "0"]
           (chars "250") (chars "17") [chars "0"; chars "0"]);
    unfold is_word, is_plain_comm; simpl;
    try reflexivity; try lia;
    repeat (constructor; try (repeat split; discriminate)).
Defined.

Lemma scan_char_clean (st : scan_state) (c : ascii) :
  c <> zero -> collected_clean st -> collected_clean (scan_char st c).
Proof.
  intros Hz [Hc [Hu Hs]]. unfold scan_char, collected_clean.
  destruct (currentField st =? 2).
  - destruct (commStringFinished st && Ascii.eqb c " "); [now simpl|].
    destruct (Ascii.eqb c ")") eqn:Eclose; [now simpl|].
    destruct (Ascii.eqb c "(") eqn:Eopen; simpl; [now idtac|].
    apply Ascii.eqb_neq in Eclose, Eopen.
    repeat split; try assumption.
    apply Forall_app. split; [exact Hc|]. now repeat constructor.
  - destruct (Ascii.eqb c " ") eqn:Esp; [now simpl|].
    apply Ascii.eqb_neq in Esp.
    destruct (currentField st =? 14); [|destruct (currentField st =? 15)];
      simpl; repeat split; try assumption;
      apply Forall_app; (split; [assumption|]); now repeat constructor.
Qed.

Lemma scan_stat_clean (statContent : list ascii) : forall st : scan_state,
  collected_clean st -> collected_clean (scan_stat st statContent).
Proof.
  induction statContent as [|c rest IH]; intros st Hst; simpl.
  - exact Hst.
  - destruct (Ascii.eqb c zero) eqn:Ez; [exact Hst|].
    apply Ascii.eqb_neq in Ez. apply IH. now apply scan_char_clean.
Qed.

(** X13: whatever the [stat] file contains, the name the loop collects has
    no parenthesis in it, and the two time strings it hands to [strtoll]
    contain no blank; none of the three contains a NUL. *)
Theorem scan_collects_clean_text (statContent : list ascii) :
  let st := scan_stat scan_init statContent in
  is_plain_comm (comm st)
  /\ is_word (utimeString st)
  /\ is_word (stimeString st).
Proof.
  apply (scan_stat_clean statContent scan_init).
  repeat split; constructor.
Qed.

(** *** The directory walk *)

Section Walk.

Variable MAX_PROC_STAT_FILE_SIZE_READ : Z.
Variable to_ThreadId : Z -> Z.
Variable strtol strtoll : list ascii -> Z.
Variable double : Type.
Variable double_of_long : Z -> double.
Variable dmul ddiv : double -> double -> double.
Variable d_1 : double.

Let Info := ThreadCPUUsageInfo double.
Let task (freq : double) (dp : task_entry) (infos : list Info) : list Info :=
  report_task MAX_PROC_STAT_FILE_SIZE_READ to_ThreadId strtol strtoll
              double double_of_long dmul freq dp infos.

Lemma report_task_appends (freq : double) (dp : task_entry)
    (infos : list Info) :
  task freq dp infos = infos ++ task freq dp [].
Proof.
  unfold task, report_task.
  destruct (is_task_name (d_name dp)); [|now rewrite app_nil_r].
  destruct (stat_file dp) as [content|]; [|now rewrite app_nil_r].
  destruct (fgets _ content) as [statContent|]; [|now rewrite app_nil_r].
  destruct (_ && _); [reflexivity | now rewrite app_nil_r].
Qed.

Lemma walk_is_flat_map (freq : double) (entries : list task_entry) :
  forall infos : list Info,
    fold_left (fun acc dp => task freq dp acc) entries infos
    = infos ++ flat_map (fun dp => task freq dp []) entries.
Proof.
  induction entries as [|dp entries IH]; intros infos; simpl.
  - now rewrite app_nil_r.
  - rewrite IH, report_task_appends. now rewrite <- app_assoc.
Qed.

Lemma report_task_at_most_one (freq : double) (dp : task_entry) :
  (length (task freq dp [])
   <= if is_task_name (d_name dp) then 1 else 0)%nat.
Proof.
  unfold task, report_task.
  destruct (is_task_name (d_name dp)); [|simpl; lia].
  destruct (stat_file dp) as [content|]; [|simpl; lia].
  destruct (fgets _ content) as [statContent|]; [|simpl; lia].
  destruct (_ && _); simpl; lia.
Qed.

Lemma walk_length (freq : double) (entries : list task_entry) :
  (length (flat_map (fun dp => task freq dp []) entries)
   <= length (filter (fun dp => is_task_name (d_name dp)) entries))%nat.
Proof.
  induction entries as [|dp entries IH]; simpl.
  - lia.
  - rewrite length_app.
    pose proof (report_task_at_most_one freq dp) as H.
    destruct (is_task_name (d_name dp)); simpl; lia.
Qed.

Lemma report_task_sound (freq : double) (dp : task_entry) (info : Info) :
  In info (task freq dp []) ->
  is_task_name (d_name dp) = true
  /\ exists content statContent,
       stat_file dp = Some content
       /\ fgets (MAX_PROC_STAT_FILE_SIZE_READ - 1) content = Some statContent
       /\ let st := scan_stat scan_init statContent in
          let uTime := strtoll (utimeString st) in
          let sTime := strtoll (stimeString st) in
          0 <= uTime /\ uTime <> LONG_MAX /\ 0 <= sTime /\ sTime <> LONG_MAX
          /\ info = mkInfo double (to_ThreadId (strtol (d_name dp))) (comm st)
                      (dmul (double_of_long uTime) freq)
                      (dmul (double_of_long sTime) freq).
Proof.
  unfold task, report_task.
  destruct (is_task_name (d_name dp)); [|intros []].
  destruct (stat_file dp) as [content|]; [|intros []].
  destruct (fgets _ content) as [statContent|] eqn:Eg; [|intros []].
  cbv zeta.
  destruct (negb (strtoll (utimeString (scan_stat scan_init statContent))
                  =? LONG_MAX)) eqn:E1; [|intros []].
  destruct (strtoll (utimeString (scan_stat scan_init statContent)) >=? 0)
    eqn:E2; [|intros []].
  destruct (negb (strtoll (stimeString (scan_stat scan_init statContent))
                  =? LONG_MAX)) eqn:E3; [|intros []].
  destruct (strtoll (stimeString (scan_stat scan_init statContent)) >=? 0)
    eqn:E4; [|intros []].
  simpl. intros [<- | []].
  apply negb_true_iff, Z.eqb_neq in E1, E3.
  rewrite Z.geb_leb in E2, E4. apply Z.leb_le in E2, E4.
  split; [reflexivity|].
  exists content, statContent. repeat split; assumption.
Qed.

End Walk.

(** X14: [reportPerThreadUsageData] returns false exactly when the task
    directory cannot be opened, and then leaves the caller's vector alone.
    Otherwise it returns true and the vector holds only what this walk found,
    nothing of its previous content: each directory entry contributes, in
    directory order, at most one record, and entries whose name is empty or
    starts with a dot contribute none. *)
Theorem per_thread_report_replaces_the_vector
    (MAX_PROC_STAT_FILE_SIZE_READ : Z) (to_ThreadId : Z -> Z)
    (strtol strtoll : list ascii -> Z) (double : Type)
    (double_of_long : Z -> double) (dmul ddiv : double -> double -> double)
    (d_1 : double) (os : os_env)
    (before : list (ThreadCPUUsageInfo double)) :
  let report := reportPerThreadUsageData MAX_PROC_STAT_FILE_SIZE_READ
                  to_ThreadId strtol strtoll double double_of_long
                  dmul ddiv d_1 os in
  let one := report_task MAX_PROC_STAT_FILE_SIZE_READ to_ThreadId strtol
               strtoll double double_of_long dmul
               (ddiv d_1 (double_of_long (clk_tck os))) in
  (fst (report before) = false <-> task_dir os = None)
  /\ (task_dir os = None -> snd (report before) = before)
  /\ (forall entries : list task_entry,
        task_dir os = Some entries ->
        snd (report before) = flat_map (fun dp => one dp []) entries
        /\ (forall other, snd (report other) = snd (report before))
        /\ (length (snd (report before))
            <= length (filter (fun dp => is_task_name (d_name dp)) entries))%nat)
  /\ (forall dp : task_entry,
        is_task_name (d_name dp) = false -> one dp [] = []).
Proof.
  intros report one. subst report one. unfold reportPerThreadUsageData.
  destruct (task_dir os) as [entries|]; simpl.
  - split; [split; discriminate|]. split; [discriminate|]. split.
    + intros ? [= <-]. rewrite walk_is_flat_map. simpl.
      split; [reflexivity|]. split; [reflexivity|]. apply walk_length.
    + intros dp Hn. unfold report_task. now rewrite Hn.
  - split; [split; reflexivity|]. split; [reflexivity|]. split.
    + discriminate.
    + intros dp Hn. unfold report_task. now rewrite Hn.
Qed.

(** X15: every record [reportPerThreadUsageData] returns comes from an
    entry of the task directory whose name does not start with a dot and
    whose [stat] file could be opened and read; its thread id is the name
    converted by [strtol], its name is the one the scan collected, and both
    its times are non-negative, differ from [LONG_MAX] and are scaled by the
    clock tick period. Threads whose times do not convert that way are left
    out. *)
Theorem per_thread_records_are_valid
    (MAX_PROC_STAT_FILE_SIZE_READ : Z) (to_ThreadId : Z -> Z)
    (strtol strtoll : list ascii -> Z) (double : Type)
    (double_of_long : Z -> double) (dmul ddiv : double -> double -> double)
    (d_1 : double) (os : os_env) (entries : list task_entry)
    (before : list (ThreadCPUUsageInfo double))
    (info : ThreadCPUUsageInfo double) :
  task_dir os = Some entries ->
  In info (snd (reportPerThreadUsageData MAX_PROC_STAT_FILE_SIZE_READ
                  to_ThreadId strtol strtoll double double_of_long
                  dmul ddiv d_1 os before)) ->
  exists (dp : task_entry) (content statContent : list ascii),
    In dp entries
    /\ is_task_name (d_name dp) = true
    /\ stat_file dp = Some content
    /\ fgets (MAX_PROC_STAT_FILE_SIZE_READ - 1) content = Some statContent
    /\ let st := scan_stat scan_init statContent in
       let uTime := strtoll (utimeString st) in
       let sTime := strtoll (stimeString st) in
       let clockTickFrequency := ddiv d_1 (double_of_long (clk_tck os)) in
       0 <= uTime /\ uTime <> LONG_MAX /\ 0 <= sTime /\ sTime <> LONG_MAX
       /\ info_tid info = to_ThreadId (strtol (d_name dp))
       /\ info_comm info = comm st
       /\ info_utime info = dmul (double_of_long uTime) clockTickFrequency
       /\ info_stime info = dmul (double_of_long sTime) clockTickFrequency.
Proof.
  intros Hdir. unfold reportPerThreadUsageData. rewrite Hdir. simpl.
  rewrite walk_is_flat_map. simpl. intros Hin.
  apply in_flat_map in Hin. destruct Hin as [dp [Hdp Hin]].
  apply report_task_sound in Hin.
  destruct Hin as [Hname [content [statContent [Hfile [Hgets Hrest]]]]].
  cbv zeta in Hrest.
  destruct Hrest as [Hu0 [Hu1 [Hs0 [Hs1 ->]]]].
  exists dp, content, statContent. simpl.
  repeat split; assumption.
Qed.

Lemma per_thread_records_are_valid_witness :
  let strto := fun cs : list ascii =>
                 fst (CPUUsageInfo.scan_digits (string_of_list_ascii cs) 0) in
  let line := stat_line (chars "4711") (chars "can rx")
                [chars "S"; chars "1"; chars "4711"; chars "4711"; chars "0";
                 chars "-1"; chars "4194368"; chars "12"; chars "0";
                 chars "3"; chars "0"]
                (chars "250") (chars "17") [chars "0"; chars "0"] in
  let entries := [mkTask (chars ".") None; mkTask (chars "..") None;
                  mkTask (chars "4711") (Some line);
                  mkTask (chars "4712") None] in
  let tick := CPUUsageInfo.Div (CPUUsageInfo.OfLong 1)
                               (CPUUsageInfo.OfLong 100) in
  let info := mkInfo CPUUsageInfo.expr 4711 (chars "can rx")
                (CPUUsageInfo.Mul (CPUUsageInfo.OfLong 250) tick)
                (CPUUsageInfo.Mul (CPUUsageInfo.OfLong 17) tick) in
  snd (reportPerThreadUsageData 4096 (fun z => z) strto strto
         CPUUsageInfo.expr CPUUsageInfo.OfLong CPUUsageInfo.Mul
         CPUUsageInfo.Div (CPUUsageInfo.OfLong 1)
         (mkOs (Some entries) 100) [])
  = [info]
  /\ exists (dp : task_entry) (content statContent : list ascii),
       In dp entries
       /\ is_task_name (d_name dp) = true
       /\ stat_file dp = Some content
       /\ fgets (4096 - 1) content = Some statContent
       /\ 0 <= strto (utimeString (scan_stat scan_init statContent))
       /\ info_tid info = strto (d_name dp).
Proof.
  intros strto line entries tick info.
  assert (Hrun : snd (reportPerThreadUsageData 4096 (fun z => z) strto strto
                        CPUUsageInfo.expr CPUUsageInfo.OfLong CPUUsageInfo.Mul
                        CPUUsageInfo.Div (CPUUsageInfo.OfLong 1)
                        (mkOs (Some entries) 100) [])
                 = [info]) by (vm_compute; reflexivity).
  split; [exact Hrun|].
  destruct (per_thread_records_are_valid 4096 (fun z => z) strto strto
              CPUUsageInfo.expr CPUUsageInfo.OfLong CPUUsageInfo.Mul
              CPUUsageInfo.Div (CPUUsageInfo.OfLong 1)
              (mkOs (Some entries) 100) entries [] info eq_refl)
    as [dp [content [statContent [Hin [Hname [Hfile [Hgets Hrest]]]]]]].
  - rewrite Hrun. left. reflexivity.
  - cbv zeta in Hrest.
    destruct Hrest as [Hu0 [_ [_ [_ [Htid _]]]]].
    exists dp, content, statContent. repeat split; assumption.
Defined.

End ThreadCPUUsageFacts.

(** ** CPUUsageInfo::reportCPUUsageInfo: the process times *)

Module CPUUsageInfoTimes.

Import CPUUsageInfo.

(** X16: [reportCPUUsageInfo] returns true exactly when [getrusage]
    succeeds. When it fails nothing is stored. When it succeeds the user and
    kernel times are stored from [ru_utime] and [ru_stime] (seconds plus
    microseconds times 1e-6) whatever happens with [/proc/uptime], so a call
    can refresh the two process times and leave the idle time stale. *)
Theorem reportCPUUsageInfo_process_times
    (double : Type) (double_of_long double_of_ulong : Z -> double)
    (dadd dmul ddiv : double -> double -> double) (d_1em6 d_100 : double)
    (sscanf_uptime : string -> scanned) (self : t double) (os : os_env) :
  let result := reportCPUUsageInfo double double_of_long double_of_ulong
                  dadd dmul ddiv d_1em6 d_100 sscanf_uptime self os in
  (fst result = true <-> getrusage_ret os = 0)
  /\ (getrusage_ret os <> 0 -> result = (false, self))
  /\ (getrusage_ret os = 0 ->
      mUserSpaceTime (snd result)
      = dadd (double_of_long (ru_utime_tv_sec (getrusage_usage os)))
             (dmul d_1em6 (double_of_long (ru_utime_tv_usec (getrusage_usage os))))
      /\ mKernelSpaceTime (snd result)
         = dadd (double_of_long (ru_stime_tv_sec (getrusage_usage os)))
                (dmul d_1em6
                      (double_of_long (ru_stime_tv_usec (getrusage_usage os))))).
Proof.
  intros result. subst result. unfold reportCPUUsageInfo.
  destruct (getrusage_ret os =? 0) eqn:E; simpl.
  - apply Z.eqb_eq in E. split; [tauto|]. split; [intros H; now elim H|].
    intros _. split; reflexivity.
  - apply Z.eqb_neq in E. split; [split; [discriminate | tauto]|].
    split; [reflexivity | tauto].
Qed.

End CPUUsageInfoTimes.
